(** * SLATE: tile-task triangular multiply and condition-number estimate

    A shallow embedding of two routines of the SLATE library:

    - [internal::trmm] (src/slate_internal_trmm.cc), the OpenMP-task
      implementation of one block row of a triangular matrix multiply;
    - [gecondest], the distributed reverse-communication estimate of the
      reciprocal condition number of an LU-factored matrix.

    Matrix entries ([scalar_t]) are kept abstract; where a statement needs
    the algebra of a commutative ring it says so, and then it speaks of
    exact arithmetic only.  Norms ([real_t], at [double]) are IEEE 754
    binary64 values as specified by [SpecFloat].

    An OpenMP task runs as a whole, and [taskwait] joins the tasks.  The
    tasks of [trmm] carry no [depend] clause: in a parallel region the
    runtime may run them in any order, and outside of one it runs each task
    where it is created.  Both runs are modelled.  The processes of the MPI
    group run [gecondest] in lockstep. *)

From Stdlib Require Import ZArith List Lia String Ring Bool.
From Stdlib Require Import Floats.SpecFloat.
From stdpp Require Import gmap list.

Local Open Scope Z_scope.

(** * Part I: the programs *)

(** ** Enumerations (slate_types.hh) *)

Inductive Side := Left | Right.
Inductive Diag := NonUnit | Unit.
Inductive Uplo := Upper | Lower.
Inductive Op := NoTrans | ConjTrans.
Inductive Norm := One | Two | Inf | Fro | Max.

(** ** Failures

    [assert] aborts the process; a tile that is not in the matrix cannot be
    operated on.  Neither leaves a result behind.  The failure does not say
    which tile was missing: when a call names several tiles, C++ does not
    fix the order in which they are fetched. *)

Inductive failure :=
| AssertionFailed (expr : string)
| TileNotFound.

Inductive result (X : Type) :=
| Ok (x : X)
| Fail (f : failure).
Arguments Ok {X} x.
Arguments Fail {X} f.

Definition bind {X Y} (c : result X) (k : X -> result Y) : result Y :=
  match c with
  | Ok x => k x
  | Fail f => Fail f
  end.

Notation "x <- c ;; k" := (bind c (fun x => k))
  (at level 100, c at next level, right associativity).
Notation "c ;;; k" := (bind c (fun _ => k))
  (at level 100, right associativity).

Definition assert (b : bool) (expr : string) : result unit :=
  if b then Ok tt else Fail (AssertionFailed expr).

Definition is_assertion (f : failure) : bool :=
  match f with AssertionFailed _ => true | _ => false end.

(** [for_ l body]: run [body] on each index of [l] in turn, stopping at the
    first failure. *)
Fixpoint for_ {S : Type} (l : list Z) (body : Z -> S -> result S) (s : S)
  : result S :=
  match l with
  | [] => Ok s
  | i :: l' => s' <- body i s ;; for_ l' body s'
  end.

(** [for (i = 0; i < n; ++i)] visits [upto n];
    [for (k = hi; k >= 0; --k)] visits [downfrom hi]. *)
Definition upto (n : Z) : list Z := seqZ 0 n.
Definition downfrom (hi : Z) : list Z := rev (seqZ 0 (hi + 1)).

(** ** Tiles, tile kernels and tiled matrices *)

Section Tiles.

Variable scalar_t : Type.
Variables (rO rI : scalar_t).
Variables (radd rmul : scalar_t -> scalar_t -> scalar_t).

(** A tile is a dense block, kept as the list of its rows. *)
Definition Tile := list (list scalar_t).

Definition tile_mb (T : Tile) : nat := length T.
Definition tile_nb (T : Tile) : nat := length (hd [] T).

Definition has_shape (mb nb : nat) (T : Tile) : Prop :=
  length T = mb /\ Forall (fun row => length row = nb) T.

Definition tile_zero (mb nb : nat) : Tile := replicate mb (replicate nb rO).

Definition tile_add (T1 T2 : Tile) : Tile := zip_with (zip_with radd) T1 T2.

Definition tile_scale (a : scalar_t) (T : Tile) : Tile :=
  map (map (rmul a)) T.

Definition dot (u v : list scalar_t) : scalar_t :=
  foldr radd rO (zip_with rmul u v).

Definition col (j : nat) (T : Tile) : list scalar_t :=
  map (fun row => nth j row rO) T.

Definition tile_mul (T1 T2 : Tile) : Tile :=
  map (fun row => map (fun j => dot row (col j T2)) (seq 0 (tile_nb T2))) T1.

Definition tile_sum (mb nb : nat) (terms : list Tile) : Tile :=
  foldr tile_add (tile_zero mb nb) terms.

(** The matrix a triangular tile stands for: the entries of the stored
    triangle, zero outside it, and ones on the diagonal when the diagonal
    is declared [Unit]. *)
Definition tri_entry (uplo : Uplo) (diag : Diag) (i j : nat) (x : scalar_t)
  : scalar_t :=
  if (i =? j)%nat then match diag with Unit => rI | NonUnit => x end
  else match uplo with
       | Lower => if (j <? i)%nat then x else rO
       | Upper => if (i <? j)%nat then x else rO
       end.

Definition tri (uplo : Uplo) (diag : Diag) (T : Tile) : Tile :=
  imap (fun i row => imap (fun j x => tri_entry uplo diag i j x) row) T.

(** Modelled from the spec: the tile kernels (slate_Tile_blas.hh) are not
    among the sources.  The spec gives the diagonal-block multiply as
    [B := alpha A B] and the accumulation as [C += alpha A B]: these are
    the [Left] branch of [tile_trmm], and [tile_gemm].  For [side = Right]
    the spec gives no formula; the branch below follows the BLAS routine of
    the same name ([B := alpha B op(A)]), and no statement of this file
    rests on what it computes.  The triangle of [A] travels with the tile
    in C++ and is an argument here. *)
Definition tile_trmm (side : Side) (uplo : Uplo) (diag : Diag)
    (alpha : scalar_t) (A B : Tile) : Tile :=
  match side with
  | Left => tile_scale alpha (tile_mul (tri uplo diag A) B)
  | Right => tile_scale alpha (tile_mul B (tri uplo diag A))
  end.

Definition tile_gemm (alpha : scalar_t) (A B : Tile)
    (beta : scalar_t) (C : Tile) : Tile :=
  tile_add (tile_scale alpha (tile_mul A B)) (tile_scale beta C).

(** Modelled from the spec: the container (slate_Matrix.hh) is an object
    that answers for the shape of its tile grid and hands out the tile at
    an index. *)
Record Matrix := mkMatrix {
  mt : Z;
  nt : Z;
  tiles : gmap (Z * Z) Tile
}.

Record TriangularMatrix := mkTriangular {
  uplo : Uplo;
  base : Matrix
}.

Definition at_ (M : Matrix) (i j : Z) : result Tile :=
  match tiles M !! (i, j) with
  | Some T => Ok T
  | None => Fail TileNotFound
  end.

Definition set_tile (M : Matrix) (i j : Z) (T : Tile) : Matrix :=
  mkMatrix (mt M) (nt M) (<[(i, j) := T]> (tiles M)).

(** The operands the tasks share ([shared(A, B)]). *)
Record Operands := mkOperands {
  opA : TriangularMatrix;
  opB : Matrix
}.

Definition store_B (st : Operands) (i j : Z) (T : Tile) : Operands :=
  mkOperands (opA st) (set_tile (opB st) i j T).

(** ** internal::trmm, Host OpenMP task implementation *)

(** The task of the first loop, for column [n].  The two tiles are fetched
    one after the other; which comes first cannot be told from the result,
    since a missing tile fails the same way whichever it is. *)
Definition trmm_task (side : Side) (diag : Diag) (alpha : scalar_t)
    (n : Z) (st : Operands) : result Operands :=
  let A := base (opA st) in
  let B := opB st in
  a <- at_ A 0 (nt A - 1) ;;
  b <- at_ B (mt B - 1) n ;;
  Ok (store_B st (mt B - 1) n
        (tile_trmm side (uplo (opA st)) diag alpha a b)).

(** The task of the second loop nest, for indices [k] and [n]; its three
    tiles are fetched likewise. *)
Definition gemm_task (alpha : scalar_t) (k n : Z) (st : Operands)
  : result Operands :=
  let A := base (opA st) in
  let B := opB st in
  a <- at_ A 0 k ;;
  b <- at_ B k n ;;
  c <- at_ B (mt B - 1) n ;;
  Ok (store_B st (mt B - 1) n (tile_gemm alpha a b rI c)).

(** The routine as it runs outside a parallel region, or in a team of one
    thread: each task is executed where the loops create it.  The run in a
    parallel region, where the runtime picks the order, is
    [trmm_HostTask_scheduled] below. *)
Definition trmm_HostTask (side : Side) (diag : Diag) (alpha : scalar_t)
    (A : TriangularMatrix) (B : Matrix) (priority : Z)
  : result Operands :=
  assert (mt (base A) =? 1) "A.mt() == 1" ;;;
  assert (nt (base A) =? mt B) "A.nt() == B.mt()" ;;;
  st <- for_ (upto (nt B)) (trmm_task side diag alpha) (mkOperands A B) ;;
  st <- for_ (downfrom (nt (base A) - 2))
          (fun k => for_ (upto (nt B)) (gemm_task alpha k)) st ;;
  Ok st.

(** [trmm<Target::HostTask, scalar_t>]: the dispatching template, at the one
    target this file instantiates it for. *)
Definition trmm (side : Side) (diag : Diag)
    (alpha : scalar_t) (A : TriangularMatrix) (B : Matrix) (priority : Z)
  : result Operands :=
  trmm_HostTask side diag alpha A B priority.

(** ** The block row that [trmm] is to compute *)

Definition tile_of (M : Matrix) (i j : Z) : Tile :=
  default ([] : Tile) (tiles M !! (i, j)).

(** [alpha op(A(0,K-1)) B(K-1,n) + alpha (A(0,0) B(0,n) + ... +
    A(0,K-2) B(K-2,n))], with [K = B.mt()]. *)
Definition reference_last_row (diag : Diag) (alpha : scalar_t)
    (A : TriangularMatrix) (B : Matrix) (n : Z) : Tile :=
  let K := mt B in
  let Bl := tile_of B (K - 1) n in
  tile_add
    (tile_scale alpha
       (tile_mul (tri (uplo A) diag (tile_of (base A) 0 (K - 1))) Bl))
    (tile_scale alpha
       (tile_sum (tile_mb Bl) (tile_nb Bl)
          (map (fun k => tile_mul (tile_of (base A) 0 k) (tile_of B k n))
               (seqZ 0 (K - 1))))).

(** [A] is tiled 1 x K and [B] is tiled K x N, with [K >= 1]; the tiles are
    all there, none is empty, and their shapes match: [A(0,k)] is [mb] by
    [kb k], the diagonal tile [A(0,K-1)] is square, and [B(k,n)] is [kb k]
    by [nb n]. *)
Definition tiled_conformally (A : TriangularMatrix) (B : Matrix) : Prop :=
  mt (base A) = 1 /\ nt (base A) = mt B /\ 1 <= mt B
  /\ exists (mb : nat) (kb nb : Z -> nat),
       kb (mt B - 1) = mb
       /\ (forall k, 0 < kb k)%nat /\ (forall n, 0 < nb n)%nat
       /\ (forall k, 0 <= k < mt B ->
             exists T, tiles (base A) !! (0, k) = Some T
                       /\ has_shape mb (kb k) T)
       /\ (forall k n, 0 <= k < mt B -> 0 <= n < nt B ->
             exists T, tiles B !! (k, n) = Some T
                       /\ has_shape (kb k) (nb n) T).

(** What the task of column [n] writes into tile [(r, n)], if its operands
    are there. *)
Definition trmm_val (side : Side) (diag : Diag) (alpha : scalar_t) (r n : Z)
    (st : Operands) : option Tile :=
  let A := base (opA st) in
  match tiles A !! (0, nt A - 1), tiles (opB st) !! (r, n) with
  | Some a, Some b => Some (tile_trmm side (uplo (opA st)) diag alpha a b)
  | _, _ => None
  end.

Definition gemm_val (alpha : scalar_t) (r k n : Z) (st : Operands)
  : option Tile :=
  match tiles (base (opA st)) !! (0, k),
        tiles (opB st) !! (k, n), tiles (opB st) !! (r, n) with
  | Some a, Some b, Some c => Some (tile_gemm alpha a b rI c)
  | _, _, _ => None
  end.

(** [frame st st']: from [st] to [st'] nothing changed but tiles of the last
    tile row of [B]. *)
Definition frame (st st' : Operands) : Prop :=
  opA st' = opA st
  /\ mt (opB st') = mt (opB st)
  /\ nt (opB st') = nt (opB st)
  /\ forall i j, i <> mt (opB st) - 1 ->
                 tiles (opB st') !! (i, j) = tiles (opB st) !! (i, j).

End Tiles.

Arguments mt {scalar_t} _.
Arguments nt {scalar_t} _.
Arguments tiles {scalar_t} _.
Arguments uplo {scalar_t} _.
Arguments base {scalar_t} _.
Arguments opA {scalar_t} _.
Arguments opB {scalar_t} _.
Arguments store_B {scalar_t} st i j T.
Arguments has_shape {scalar_t} mb nb T.
Arguments tile_nb {scalar_t} T.
Arguments tile_mb {scalar_t} T.
Arguments tile_of {scalar_t} M i j.
Arguments frame {scalar_t} st st'.
Arguments tiled_conformally {scalar_t} A B.

(** ** The tasks of [trmm] and the orders they may run in *)

(** One task per [#pragma omp task]: the [trmm] task of column [n], and the
    [gemm] task of indices [k] and [n]. *)
Inductive task :=
| TrmmTask (n : Z)
| GemmTask (k n : Z).

(** The column of [B] a task writes to. *)
Definition task_column (t : task) : Z :=
  match t with
  | TrmmTask n => n
  | GemmTask _ n => n
  end.

(** [reorder l l']: the schedule [l'] comes from [l] by exchanging, any
    number of times, two neighbouring tasks that write to different
    columns. *)
Inductive reorder : list task -> list task -> Prop :=
| reorder_refl (l : list task) : reorder l l
| reorder_swap (l1 l2 : list task) (t1 t2 : task) :
    task_column t1 <> task_column t2 ->
    reorder (l1 ++ t1 :: t2 :: l2) (l1 ++ t2 :: t1 :: l2)
| reorder_trans (l1 l2 l3 : list task) :
    reorder l1 l2 -> reorder l2 l3 -> reorder l1 l3.

Section Tasks.

Variable scalar_t : Type.
Variables (rO rI : scalar_t).
Variables (radd rmul : scalar_t -> scalar_t -> scalar_t).

Definition run_task (side : Side) (diag : Diag) (alpha : scalar_t)
    (t : task) (st : Operands scalar_t) : result (Operands scalar_t) :=
  match t with
  | TrmmTask n => trmm_task scalar_t rO rI radd rmul side diag alpha n st
  | GemmTask k n => gemm_task scalar_t rO rI radd rmul alpha k n st
  end.

Fixpoint run_tasks (side : Side) (diag : Diag) (alpha : scalar_t)
    (l : list task) (st : Operands scalar_t) : result (Operands scalar_t) :=
  match l with
  | [] => Ok st
  | t :: l' =>
      st' <- run_task side diag alpha t st ;;
      run_tasks side diag alpha l' st'
  end.

(** The tasks in the order in which the two loop nests create them. *)
Definition program_order (A : TriangularMatrix scalar_t)
    (B : Matrix scalar_t) : list task :=
  map TrmmTask (upto (nt B))
  ++ flat_map (fun k => map (GemmTask k) (upto (nt B)))
       (downfrom (nt (base A) - 2)).

(** [schedule A B l]: [l] runs every task the loops create, each once.
    The source orders the tasks by nothing but [taskwait], so every such
    [l] is an order the runtime may pick. *)
Definition schedule (A : TriangularMatrix scalar_t) (B : Matrix scalar_t)
    (l : list task) : Prop :=
  Permutation l (program_order A B).

(** The routine in a parallel region: the assertions, then the tasks in the
    order [l] the runtime picked, joined by [taskwait]. *)
Definition trmm_HostTask_scheduled (l : list task)
    (side : Side) (diag : Diag) (alpha : scalar_t)
    (A : TriangularMatrix scalar_t) (B : Matrix scalar_t) (priority : Z)
  : result (Operands scalar_t) :=
  assert (mt (base A) =? 1) "A.mt() == 1" ;;;
  assert (nt (base A) =? mt B) "A.nt() == B.mt()" ;;;
  run_tasks side diag alpha l (mkOperands scalar_t A B).

(** What a task makes of the tile [acc] it finds at its place in the last
    tile row, from the tiles [A] and [B] had on entry. *)
Definition task_kernel (side : Side) (diag : Diag) (alpha : scalar_t)
    (A : TriangularMatrix scalar_t) (B : Matrix scalar_t)
    (acc : Tile scalar_t) (t : task) : Tile scalar_t :=
  match t with
  | TrmmTask n =>
      tile_trmm scalar_t rO rI radd rmul side (uplo A) diag alpha
        (tile_of (base A) 0 (nt (base A) - 1)) acc
  | GemmTask k n =>
      tile_gemm scalar_t rO radd rmul alpha
        (tile_of (base A) 0 k) (tile_of B k n) rI acc
  end.

(** The tasks of [l] that write to column [n], in the order of [l]. *)
Definition column_tasks (n : Z) (l : list task) : list task :=
  List.filter (fun t => task_column t =? n) l.

(** The kernels of column [n] applied to the tile [B(K-1,n)] had on entry,
    in the order in which the schedule [l] runs them. *)
Definition scheduled_last_row (side : Side) (diag : Diag)
    (alpha : scalar_t) (A : TriangularMatrix scalar_t)
    (B : Matrix scalar_t) (l : list task) (n : Z) : Tile scalar_t :=
  fold_left (task_kernel side diag alpha A B) (column_tasks n l)
    (tile_of B (mt B - 1) n).

(** The indices of the tasks the loops create for a [K] x [N] grid. *)
Definition task_in_range (K N : Z) (t : task) : Prop :=
  match t with
  | TrmmTask n => 0 <= n < N
  | GemmTask k n => 0 <= k < K - 1 /\ 0 <= n < N
  end.

(** What a task writes into tile [(r, task_column t)], if its operands are
    there. *)
Definition task_val (side : Side) (diag : Diag) (alpha : scalar_t)
    (t : task) (r : Z) (st : Operands scalar_t)
  : option (Tile scalar_t) :=
  match t with
  | TrmmTask n => trmm_val scalar_t rO rI radd rmul side diag alpha r n st
  | GemmTask k n => gemm_val scalar_t rO rI radd rmul alpha r k n st
  end.

(** [same_grid st st']: the tile grid of [B] has the same shape and holds
    tiles at the same indices in [st'] as in [st]. *)
Definition same_grid (st st' : Operands scalar_t) : Prop :=
  mt (opB st') = mt (opB st)
  /\ nt (opB st') = nt (opB st)
  /\ (dom (tiles (opB st')) : gset (Z * Z)) = dom (tiles (opB st)).

(** [A] is tiled 1 x K and [B] is tiled K x N, with [K >= 1], and every
    tile of the two grids is there. *)
Definition tiles_present (A : TriangularMatrix scalar_t)
    (B : Matrix scalar_t) : Prop :=
  mt (base A) = 1 /\ nt (base A) = mt B /\ 1 <= mt B
  /\ (forall k, 0 <= k < mt B -> is_Some (tiles (base A) !! (0, k)))
  /\ (forall k n, 0 <= k < mt B -> 0 <= n < nt B ->
        is_Some (tiles B !! (k, n))).

(** The value the loops leave in [B(K-1,n)], written as the nest of kernel
    calls they perform: the diagonal [trmm] innermost, then one [gemm] for
    [k = K-2], ..., and the [gemm] for [k = 0] outermost. *)
Definition accumulated_last_row (side : Side) (diag : Diag)
    (alpha : scalar_t) (A : TriangularMatrix scalar_t)
    (B : Matrix scalar_t) (n : Z) : Tile scalar_t :=
  let K := mt B in
  foldr (fun k acc =>
           tile_gemm scalar_t rO radd rmul alpha
             (tile_of (base A) 0 k) (tile_of B k n) rI acc)
        (tile_trmm scalar_t rO rI radd rmul side (uplo A) diag alpha
           (tile_of (base A) 0 (K - 1)) (tile_of B (K - 1) n))
        (seqZ 0 (K - 1)).

End Tasks.

Arguments tiles_present {scalar_t} A B.
Arguments same_grid {scalar_t} st st'.
Arguments program_order {scalar_t} A B.
Arguments schedule {scalar_t} A B l.

(** ** A run over the integers *)

Definition Ztrmm := trmm Z 0 1 Z.add Z.mul.
Definition Zreference := reference_last_row Z 0 1 Z.add Z.mul.

(** [exA] is 1 x 2 and lower triangular, [exB] is 2 x 2, tiles 2 by 2. *)
Definition exA : TriangularMatrix Z :=
  mkTriangular Z Lower
    (mkMatrix Z 1 2
       (<[(0, 1) := [[1; 2]; [3; 4]]]> (<[(0, 0) := [[0; 1]; [1; 0]]]> ∅))).

Definition exB : Matrix Z :=
  mkMatrix Z 2 2
    (<[(1, 1) := [[1; 1]; [0; 2]]]>
       (<[(1, 0) := [[0; 1]; [1; 0]]]>
          (<[(0, 1) := [[5; 0]; [0; 5]]]>
             (<[(0, 0) := [[1; 2]; [3; 4]]]> ∅)))).

(** A single 2 by 2 tile on each side. *)
Definition oneA : TriangularMatrix Z :=
  mkTriangular Z Lower (mkMatrix Z 1 1 (<[(0, 0) := [[1; 0]; [1; 1]]]> ∅)).

Definition oneB : Matrix Z :=
  mkMatrix Z 1 1 (<[(0, 0) := [[0; 1]; [0; 0]]]> ∅).

(** ** gecondest *)

(** [real_t] at [double]: IEEE 754 binary64. *)
Definition real_t := spec_float.
Definition prec : Z := 53.
Definition emax : Z := 1024.

Definition r0 : real_t := S754_zero false.
Definition r1 : real_t := SFone prec emax.
Definition isnan (x : real_t) : bool :=
  match x with S754_nan => true | _ => false end.
Definition rdiv : real_t -> real_t -> real_t := SFdiv prec emax.

(** [signed s x]: [x] is a number, not NaN, whose sign bit is [s]. *)
Definition signed (s : bool) (x : spec_float) : Prop :=
  match x with
  | S754_nan => False
  | S754_zero s' | S754_infinity s' | S754_finite s' _ _ => s' = s
  end.

(** [positive_float x]: [x > 0]. *)
Definition positive_float (x : spec_float) : Prop :=
  match x with
  | S754_infinity false | S754_finite false _ _ => True
  | _ => False
  end.

Definition rank := nat.

(** What a run does that other processes can see, in order: estimator
    steps, broadcasts, triangular solves, and the tests of the loop
    condition with the pair of [kase] and [isave] each process holds. *)
Inductive event :=
| EvNorm1est
| EvBcast_isave (root : rank)
| EvBcast_kase (root : rank)
| EvTrsm (uplo : Uplo) (diag : Diag) (op : Op)
| EvTest (held : list (Z * (Z * Z * Z * Z))).

(** How a run ends: every process returns its [rcond]; [slate_error]
    throws; the processes part ways at a branch ([Desync]); or the run is
    still going when the fuel is spent. *)
Inductive outcome :=
| Returns (rcond : rank -> real_t)
| Throws (what : string)
| Desync
| OutOfFuel.

Section Gecondest.

Variables scalar_t MatData Vec IVec Options : Type.
Variable scalar_one : scalar_t.

(** Modelled from the spec: the distributed matrix is an opaque object with
    a row count, a tile-to-rank map and a process group. *)
Record DistMatrix := mkDist {
  m : Z;
  tileRankFunc : Z -> Z -> rank;
  mpiSize : nat;
  entries : MatData
}.

Record TriView := mkTri {
  tv_uplo : Uplo;
  tv_diag : Diag;
  tv_op : Op;
  tv_of : DistMatrix
}.

Definition conj_transpose (T : TriView) : TriView :=
  mkTri (tv_uplo T) (tv_diag T)
        (match tv_op T with NoTrans => ConjTrans | ConjTrans => NoTrans end)
        (tv_of T).

(** What one process holds: its parts of [X], [V] and [isgn], and its own
    [Ainvnorm], [kase] and [isave]. *)
Record Local := mkLocal {
  X : Vec;
  V : Vec;
  isgn : IVec;
  Ainvnorm : real_t;
  kase : Z;
  isave : Z * Z * Z * Z
}.

Definition World := rank -> Local.

(** The collaborators, on the data of all processes: the estimator step
    [internal::norm1est], which may update all that a process holds, and the
    triangular solve [slate::trsm], which overwrites [X]. *)
Variable norm1est : World -> World.
Variable trsm : Side -> scalar_t -> TriView -> Options ->
                (rank -> Vec) -> (rank -> Vec).

(** Contents of the freshly inserted tiles of [X], [V] and [isgn]. *)
Variables (X0 V0 : rank -> Vec) (isgn0 : rank -> IVec).

Definition set_X (l : Local) (x : Vec) : Local :=
  mkLocal x (V l) (isgn l) (Ainvnorm l) (kase l) (isave l).

Definition set_kase (l : Local) (k : Z) : Local :=
  mkLocal (X l) (V l) (isgn l) (Ainvnorm l) k (isave l).

Definition set_isave (l : Local) (s : Z * Z * Z * Z) : Local :=
  mkLocal (X l) (V l) (isgn l) (Ainvnorm l) (kase l) s.

(** [MPI_Bcast]: every process leaves with the root's buffer. *)
Definition Bcast_isave (root : rank) (w : World) : World :=
  fun p => set_isave (w p) (isave (w root)).

Definition Bcast_kase (root : rank) (w : World) : World :=
  fun p => set_kase (w p) (kase (w root)).

(** A branch on local data: [Some b] when the [n] processes all take branch
    [b], [None] when they part ways. *)
Definition unanimous (n : nat) (f : rank -> bool) : option bool :=
  if forallb (fun p => Bool.eqb (f p) (f O)) (seq 0 n) then Some (f O)
  else None.

Definition held (n : nat) (w : World) : list (Z * (Z * Z * Z * Z)) :=
  map (fun p => (kase (w p), isave (w p))) (seq 0 n).

(** A statement acts on the world and leaves its events in the trace;
    [a >> b] is [a] followed by [b]. *)
Definition action := World -> list event * World.

Definition then_ (a b : action) : action :=
  fun w =>
    let '(e1, w1) := a w in
    let '(e2, w2) := b w1 in
    (e1 ++ e2, w2).

Notation "a >> b" := (then_ a b) (at level 61, left associativity).

Definition internal_norm1est : action :=
  fun w => ([EvNorm1est], norm1est w).

Definition MPI_Bcast_isave (root : rank) : action :=
  fun w => ([EvBcast_isave root], Bcast_isave root w).

Definition MPI_Bcast_kase (root : rank) : action :=
  fun w => ([EvBcast_kase root], Bcast_kase root w).

Definition slate_trsm (side : Side) (alpha : scalar_t) (T : TriView)
    (opts : Options) : action :=
  fun w =>
    ([EvTrsm (tv_uplo T) (tv_diag T) (tv_op T)],
     fun p => set_X (w p) (trsm side alpha T opts (fun q => X (w q)) p)).

(** The body of the [while] loop; [first] is [kase == kase1]. *)
Definition loop_body (first : bool) (root : rank) (alpha : scalar_t)
    (L U : TriView) (opts : Options) : action :=
  (if first then
     slate_trsm Left alpha L opts >>
     slate_trsm Left alpha U opts
   else
     slate_trsm Left alpha (conj_transpose U) opts >>
     slate_trsm Left alpha (conj_transpose L) opts) >>
  internal_norm1est >>
  MPI_Bcast_isave root >>
  MPI_Bcast_kase root.

Definition rcond_of (Anorm Ainvnorm : real_t) : real_t :=
  if negb (SFeqb Ainvnorm r0) then rdiv (rdiv r1 Ainvnorm) Anorm else r0.

Fixpoint while_kase (fuel : nat) (n : nat) (root : rank) (kase1 : Z)
    (alpha : scalar_t) (L U : TriView) (opts : Options) (Anorm : real_t)
    (w : World) : list event * outcome :=
  match fuel with
  | O => ([], OutOfFuel)
  | S fuel' =>
    match unanimous n (fun p => negb (kase (w p) =? 0)) with
    | None => ([EvTest (held n w)], Desync)
    | Some false =>
      ([EvTest (held n w)], Returns (fun p => rcond_of Anorm (Ainvnorm (w p))))
    | Some true =>
      match unanimous n (fun p => kase (w p) =? kase1) with
      | None => ([EvTest (held n w)], Desync)
      | Some first =>
        let '(ev, w') := loop_body first root alpha L U opts w in
        let '(evs, out) :=
          while_kase fuel' n root kase1 alpha L U opts Anorm w' in
        (EvTest (held n w) :: ev ++ evs, out)
      end
    end
  end.

Definition gecondest (fuel : nat) (in_norm : Norm) (A : DistMatrix)
    (Anorm : real_t) (opts : Options) : list event * outcome :=
  let continue (kase1 : Z) :=
    if SFltb Anorm r0 || isnan Anorm then ([], Throws "invalid Anorm")
    else
      let m := m A in
      if m <=? 1 then ([], Returns (fun _ => r1))
      else if SFeqb Anorm r0 then ([], Returns (fun _ => r0))
      else
        let alpha := scalar_one in
        let w : World :=
          fun p => mkLocal (X0 p) (V0 p) (isgn0 p) r0 0 (0, 0, 0, 0) in
        let L := mkTri Lower Unit NoTrans A in
        let U := mkTri Upper NonUnit NoTrans A in
        let root := tileRankFunc A 0 0 in
        let '(ev0, w) :=
          (internal_norm1est >>
           MPI_Bcast_isave root >>
           MPI_Bcast_kase root) w in
        let '(evs, out) :=
          while_kase fuel (mpiSize A) root kase1 alpha L U opts Anorm w in
        (ev0 ++ evs, out)
  in
  match in_norm with
  | One => continue 1
  | Inf => continue 2
  | _ => ([], Throws "invalid norm.")
  end.

(** ** The lockstep discipline, and the rounds of the loop *)

(** Every process holds the same request code and the same state vector. *)
Definition agree (w : World) : Prop :=
  forall p q, kase (w p) = kase (w q) /\ isave (w p) = isave (w q).

(** Every estimator step of a trace is followed at once by the broadcast of
    [isave] and then by that of [kase], both from [root]. *)
Definition followed_by_bcasts (root : rank) (tr : list event) : Prop :=
  forall pre post, tr = pre ++ EvNorm1est :: post ->
    exists rest, post = EvBcast_isave root :: EvBcast_kase root :: rest.

(** Whenever the processes branch on [kase], they all hold the same pair of
    request code and state vector. *)
Definition tests_agree (tr : list event) : Prop :=
  forall h, In (EvTest h) tr -> forall x y, In x h -> In y h -> x = y.

(** One trip through the loop body, and the world after [j] trips. *)
Definition round (root : rank) (kase1 : Z) (alpha : scalar_t)
    (L U : TriView) (opts : Options) (w : World) : World :=
  snd (loop_body (kase (w root) =? kase1) root alpha L U opts w).

Fixpoint rounds (j : nat) (root : rank) (kase1 : Z) (alpha : scalar_t)
    (L U : TriView) (opts : Options) (w : World) : World :=
  match j with
  | O => w
  | S j' => rounds j' root kase1 alpha L U opts
                   (round root kase1 alpha L U opts w)
  end.

Definition kase1_of (in_norm : Norm) : Z :=
  match in_norm with One => 1 | _ => 2 end.

(** The world in which the loop condition is tested for the [j]-th time
    (counting from zero). *)
Definition world_at (j : nat) (in_norm : Norm) (A : DistMatrix)
    (opts : Options) : World :=
  rounds j (tileRankFunc A 0 0) (kase1_of in_norm) scalar_one
    (mkTri Lower Unit NoTrans A) (mkTri Upper NonUnit NoTrans A) opts
    (snd ((internal_norm1est >>
           MPI_Bcast_isave (tileRankFunc A 0 0) >>
           MPI_Bcast_kase (tileRankFunc A 0 0))
            (fun p => mkLocal (X0 p) (V0 p) (isgn0 p) r0 0 (0, 0, 0, 0)))).

End Gecondest.

Arguments m {MatData} _.
Arguments tileRankFunc {MatData} _ _ _.
Arguments mpiSize {MatData} _.
Arguments Ainvnorm {Vec IVec} _.
Arguments kase {Vec IVec} _.
Arguments isave {Vec IVec} _.
Arguments agree {Vec IVec} w.

(** ** A run with a three-step estimator

    Three processes; tile (0,0) lives on rank 1.  The estimator asks for the
    operator, then for its transpose, then stops with [final] as its
    estimate.  Only the root computes the request code and the state
    vector; the other processes are left with values of their own. *)

Definition toy_norm1est (final : real_t) (w : World unit unit)
  : World unit unit :=
  fun p =>
    let l := w p in
    let '(phase, b, c, d) := isave l in
    if (p =? 1)%nat then
      if phase =? 0 then mkLocal unit unit tt tt tt (Ainvnorm l) 1 (1, b, c, d)
      else if phase =? 1 then
        mkLocal unit unit tt tt tt (Ainvnorm l) 2 (2, b, c, d)
      else mkLocal unit unit tt tt tt final 0 (3, b, c, d)
    else
      mkLocal unit unit tt tt tt
        (if 2 <=? phase then final else Ainvnorm l)
        (Z.of_nat p + 5) (phase - 1, b, c, d).

Definition toy_trsm (side : Side) (alpha : Z) (T : TriView unit)
    (opts : unit) (x : rank -> unit) : rank -> unit := x.

Definition toy_gecondest (final : real_t) :=
  gecondest Z unit unit unit unit 1 (toy_norm1est final) toy_trsm
    (fun _ => tt) (fun _ => tt) (fun _ => tt).

Definition toy_world_at (final : real_t) (j : nat) (in_norm : Norm)
    (A : DistMatrix unit) : World unit unit :=
  world_at Z unit unit unit unit 1 (toy_norm1est final) toy_trsm
    (fun _ => tt) (fun _ => tt) (fun _ => tt) j in_norm A tt.

Definition toyA (rows : Z) : DistMatrix unit :=
  mkDist unit rows (fun _ _ => 1%nat) 3 tt.

(** 0.5, 8, the least positive binary64 number, and +infinity. *)
Definition r_half : real_t := S754_finite false 4503599627370496 (-53).
Definition r_eight : real_t := S754_finite false 4503599627370496 (-49).
Definition r_tiny : real_t := S754_finite false 1 (-1074).
Definition r_inf : real_t := S754_infinity false.

(** ** The trace of a run that stops *)

(** The solves of one trip through the loop, by the branch taken. *)
Definition solve_events (first : bool) (lower upper : Uplo * Diag)
  : list event :=
  if first then
    [EvTrsm (fst lower) (snd lower) NoTrans;
     EvTrsm (fst upper) (snd upper) NoTrans]
  else
    [EvTrsm (fst upper) (snd upper) ConjTrans;
     EvTrsm (fst lower) (snd lower) ConjTrans].

(** An estimator step with its two broadcasts. *)
Definition sync_events (root : rank) : list event :=
  [EvNorm1est; EvBcast_isave root; EvBcast_kase root].

Definition is_norm1est (e : event) : bool :=
  match e with EvNorm1est => true | _ => false end.

Definition is_trsm (e : event) : bool :=
  match e with EvTrsm _ _ _ => true | _ => false end.

Definition is_bcast (e : event) : bool :=
  match e with EvBcast_isave _ | EvBcast_kase _ => true | _ => false end.

Definition count_events (P : event -> bool) (tr : list event) : nat :=
  length (List.filter P tr).

Section GecondestTrace.

Variables scalar_t MatData Vec IVec Options : Type.
Variable scalar_one : scalar_t.
Variable norm1est : World Vec IVec -> World Vec IVec.
Variable trsm : Side -> scalar_t -> TriView MatData -> Options ->
                (rank -> Vec) -> (rank -> Vec).
Variables (X0 V0 : rank -> Vec) (isgn0 : rank -> IVec).

(** The trace of a run of [gecondest] that leaves the loop at the [r]-th
    test of its condition: the cold start, then for each trip the test,
    the two solves of the branch taken and the estimator step, then the
    last test. *)
Definition expected_trace (r : nat) (in_norm : Norm)
    (A : DistMatrix MatData) (opts : Options) : list event :=
  let root := tileRankFunc A 0 0 in
  let at_test j :=
    world_at scalar_t MatData Vec IVec Options scalar_one norm1est trsm
      X0 V0 isgn0 j in_norm A opts in
  sync_events root
  ++ flat_map
       (fun j =>
          EvTest (held Vec IVec (mpiSize A) (at_test j))
          :: solve_events (kase (at_test j root) =? kase1_of in_norm)
               (Lower, Unit) (Upper, NonUnit)
          ++ sync_events root)
       (seq 0 r)
  ++ [EvTest (held Vec IVec (mpiSize A) (at_test r))].

End GecondestTrace.

(** ** More inputs for the runs *)


Definition noColsB : Matrix Z := mkMatrix Z 2 0 ∅.

Definition Zrun_tasks := run_tasks Z 0 1 Z.add Z.mul.
Definition Ztrmm_scheduled := trmm_HostTask_scheduled Z 0 1 Z.add Z.mul.

(** The tasks of [exA] and [exB] with the first [gemm] task moved ahead of
    the [trmm] task of the other column. *)
Definition exSchedule : list task :=
  [TrmmTask 0; GemmTask 0 0; TrmmTask 1; GemmTask 0 1].

(** The same tasks with the [gemm] tasks run first: in each column the
    accumulation comes before the diagonal-block multiply. *)
Definition exRaced : list task :=
  [GemmTask 0 1; GemmTask 0 0; TrmmTask 1; TrmmTask 0].

(** * Part II: what the programs do *)

(** ** Generic facts on lists of rows *)

Section ZipFacts.

Context {X : Type} (f : X -> X -> X).

Lemma zip_with_sym :
  (forall x y, f x y = f y x) ->
  forall l k : list X, zip_with f l k = zip_with f k l.
Proof.
  intros Hc l; induction l as [|x l IH]; intros [|y k]; simpl; trivial.
  now rewrite Hc, IH.
Qed.

Lemma zip_with_assoc :
  (forall x y z, f x (f y z) = f (f x y) z) ->
  forall l k h : list X,
    zip_with f l (zip_with f k h) = zip_with f (zip_with f l k) h.
Proof.
  intros Ha l; induction l as [|x l IH]; intros [|y k] [|z h]; simpl; trivial.
  now rewrite Ha, IH.
Qed.

Lemma map_zip_with_distr (g : X -> X) :
  (forall x y, g (f x y) = f (g x) (g y)) ->
  forall l k : list X,
    map g (zip_with f l k) = zip_with f (map g l) (map g k).
Proof.
  intros Hg l; induction l as [|x l IH]; intros [|y k]; simpl; trivial.
  now rewrite Hg, IH.
Qed.

Lemma zip_with_replicate_r (e : X) :
  (forall x, f x e = x) ->
  forall l : list X, zip_with f l (replicate (length l) e) = l.
Proof.
  intros He l; induction l as [|x l IH]; simpl; trivial.
  now rewrite He, IH.
Qed.

End ZipFacts.

Lemma map_id_ext {X : Type} (g : X -> X) :
  (forall x, g x = x) -> forall l : list X, map g l = l.
Proof.
  intros Hg l; induction l as [|x l IH]; simpl; trivial.
  now rewrite Hg, IH.
Qed.

(** ** Algebra of tiles over a commutative ring *)

Section TileAlgebra.

Variable scalar_t : Type.
Variables (rO rI : scalar_t).
Variables (radd rmul rsub : scalar_t -> scalar_t -> scalar_t).
Variable ropp : scalar_t -> scalar_t.
Hypothesis Rth : ring_theory rO rI radd rmul rsub ropp eq.

Add Ring scalar_ring : Rth.

Abbreviation tile := (Tile scalar_t).
Notation "X +t Y" := (tile_add scalar_t radd X Y)
  (at level 50, left associativity).
Notation "a *t X" := (tile_scale scalar_t rmul a X)
  (at level 40, left associativity).
Abbreviation zero := (tile_zero scalar_t rO).
Abbreviation mul := (tile_mul scalar_t rO radd rmul).

Lemma tile_add_comm (X Y : tile) : X +t Y = Y +t X.
Proof.
  apply zip_with_sym. intros u v. apply zip_with_sym. intros; ring.
Qed.

Lemma tile_add_assoc (X Y Z : tile) : X +t (Y +t Z) = (X +t Y) +t Z.
Proof.
  apply zip_with_assoc. intros u v w. apply zip_with_assoc. intros; ring.
Qed.

Lemma tile_scale_add (a : scalar_t) (X Y : tile) :
  a *t (X +t Y) = a *t X +t a *t Y.
Proof.
  apply map_zip_with_distr. intros u v.
  apply map_zip_with_distr. intros; ring.
Qed.

Lemma tile_scale_one (X : tile) : rI *t X = X.
Proof.
  apply map_id_ext. intros u. apply map_id_ext. intros; ring.
Qed.

Lemma tile_scale_zero (a : scalar_t) (m n : nat) : a *t zero m n = zero m n.
Proof.
  unfold tile_scale, tile_zero.
  induction m as [|m IH]; simpl; trivial. f_equal; trivial.
  clear IH. induction n as [|n IH]; simpl; trivial. f_equal; trivial. ring.
Qed.

Lemma tile_add_zero_r (m n : nat) (X : tile) :
  has_shape m n X -> X +t zero m n = X.
Proof.
  intros [Hm Hn]. subst m. unfold tile_add, tile_zero.
  induction Hn as [|u X Hu _ IH]; simpl; trivial.
  rewrite IH. f_equal. subst n. apply zip_with_replicate_r. intros; ring.
Qed.

Lemma tile_mul_shape (X Y : tile) :
  has_shape (tile_mb X) (tile_nb Y) (mul X Y).
Proof.
  unfold has_shape, tile_mul, tile_mb. split.
  - now rewrite length_map.
  - apply List.Forall_forall. intros row Hin. apply in_map_iff in Hin.
    destruct Hin as (u & <- & _). now rewrite length_map, length_seq.
Qed.

Lemma tile_scale_shape (a : scalar_t) (m n : nat) (X : tile) :
  has_shape m n X -> has_shape m n (a *t X).
Proof.
  unfold has_shape, tile_scale. intros [Hm Hn]. split.
  - now rewrite length_map.
  - apply List.Forall_forall. intros row Hin. apply in_map_iff in Hin.
    destruct Hin as (u & <- & Hu). rewrite length_map.
    rewrite List.Forall_forall in Hn. now apply Hn.
Qed.

Lemma tri_mb (ul : Uplo) (dg : Diag) (X : tile) :
  tile_mb (tri scalar_t rO rI ul dg X) = tile_mb X.
Proof. unfold tri, tile_mb. now rewrite length_imap. Qed.

Abbreviation sum := (tile_sum scalar_t rO radd).

(** The accumulation the [gemm] tasks perform on one column, in the order
    of the [k] loop, against the sum the operation is defined by. *)
Lemma gemm_chain (alpha : scalar_t) (m n : nat) (T : tile)
    (a b : Z -> tile) (ks : list Z) :
  has_shape m n T ->
  foldr (fun k c => tile_gemm scalar_t rO radd rmul alpha (a k) (b k) rI c)
        T ks
  = T +t alpha *t sum m n (map (fun k => mul (a k) (b k)) ks).
Proof.
  intros HT. induction ks as [|k ks IH]; simpl.
  - unfold tile_sum; simpl. rewrite tile_scale_zero.
    symmetry. now apply tile_add_zero_r.
  - rewrite IH. unfold tile_gemm. rewrite tile_scale_one.
    fold (sum m n (map (fun k => mul (a k) (b k)) ks)).
    rewrite tile_scale_add.
    set (S := alpha *t sum m n _).
    set (P := alpha *t mul (a k) (b k)).
    rewrite (tile_add_comm P (T +t S)).
    rewrite <- tile_add_assoc. f_equal. apply tile_add_comm.
Qed.

End TileAlgebra.

(** ** Execution of the task loops *)

Section TrmmRun.

Variable scalar_t : Type.
Variables (rO rI : scalar_t).
Variables (radd rmul : scalar_t -> scalar_t -> scalar_t).

Abbreviation tile := (Tile scalar_t).
Abbreviation operands := (Operands scalar_t).
Abbreviation kernel_trmm := (tile_trmm scalar_t rO rI radd rmul).
Abbreviation kernel_gemm := (tile_gemm scalar_t rO radd rmul).
Abbreviation run_trmm_task := (trmm_task scalar_t rO rI radd rmul).
Abbreviation run_gemm_task := (gemm_task scalar_t rO rI radd rmul).
Abbreviation val_trmm := (trmm_val scalar_t rO rI radd rmul).
Abbreviation val_gemm := (gemm_val scalar_t rO rI radd rmul).
Abbreviation run_trmm := (trmm scalar_t rO rI radd rmul).

Lemma at_lookup (M : Matrix scalar_t) (i j : Z) (T : tile) :
  tiles M !! (i, j) = Some T -> at_ scalar_t M i j = Ok T.
Proof. unfold at_. now intros ->. Qed.

Lemma lookup_store_B (st : operands) (r n i j : Z) (T : tile) :
  tiles (opB (store_B st r n T)) !! (i, j)
  = if decide ((r, n) = (i, j)) then Some T else tiles (opB st) !! (i, j).
Proof. simpl. apply lookup_insert. Qed.

(** A sweep over the columns [l] in which the task of column [n] replaces
    tile [(r, n)] by a value [F n] that no other task of the sweep
    influences. *)
Lemma for_row_update (r : Z) (F : Z -> operands -> option tile)
    (task : Z -> operands -> result operands) :
  (forall n st v, mt (opB st) = r + 1 -> F n st = Some v ->
                  task n st = Ok (store_B st r n v)) ->
  (forall n n' st v, n' <> n -> F n (store_B st r n' v) = F n st) ->
  forall (l : list Z) (st : operands),
    NoDup l -> mt (opB st) = r + 1 ->
    (forall n, n ∈ l -> is_Some (F n st)) ->
    exists st', for_ l task st = Ok st'
      /\ opA st' = opA st
      /\ mt (opB st') = mt (opB st)
      /\ nt (opB st') = nt (opB st)
      /\ forall i j, tiles (opB st') !! (i, j)
                     = if decide (i = r /\ j ∈ l) then F j st
                       else tiles (opB st) !! (i, j).
Proof.
  intros Htask Hloc l. induction l as [|n l IH]; intros st Hnd Hmt HF.
  - exists st. simpl. repeat split; trivial. intros i j.
    case_decide as Hd; trivial. destruct Hd as [_ Hd]. inversion Hd.
  - apply NoDup_cons in Hnd as [Hn Hnd].
    destruct (HF n) as [v Hv]; [left|].
    destruct (IH (store_B st r n v)) as (st' & Hrun & HA & Hm & Hnt & Hlk);
      trivial.
    { intros n' Hn'. rewrite Hloc; [apply HF; now right|].
      intros ->. contradiction. }
    exists st'. simpl. rewrite (Htask n st v Hmt Hv). simpl.
    repeat split; trivial. intros i j. rewrite Hlk.
    repeat case_decide; trivial.
    + rewrite Hloc; trivial. intros ->. tauto.
    + exfalso. destruct H as [-> Hj]. apply H0. split; trivial. now right.
    + rewrite lookup_store_B. case_decide as Hk.
      * injection Hk as <- <-. now rewrite Hv.
      * exfalso. destruct H0 as [-> Hj]. apply elem_of_cons in Hj as [->|Hj].
        -- now apply Hk. -- apply H. now split.
    + rewrite lookup_store_B. case_decide as Hk; trivial.
      injection Hk as <- <-. exfalso. apply H0. split; trivial. now left.
Qed.

Lemma trmm_task_val side diag alpha r n (st : operands) (v : tile) :
  mt (opB st) = r + 1 -> val_trmm side diag alpha r n st = Some v ->
  run_trmm_task side diag alpha n st = Ok (store_B st r n v).
Proof.
  unfold trmm_val, trmm_task. intros Hr.
  replace (mt (opB st) - 1) with r by lia.
  destruct (tiles _ !! (0, _)) as [a|] eqn:Ha; [|discriminate].
  destruct (tiles _ !! (r, n)) as [b|] eqn:Hb; [|discriminate].
  intros [= <-]. rewrite (at_lookup _ _ _ _ Ha), (at_lookup _ _ _ _ Hb).
  reflexivity.
Qed.

Lemma gemm_task_val alpha r k n (st : operands) (v : tile) :
  mt (opB st) = r + 1 -> val_gemm alpha r k n st = Some v ->
  run_gemm_task alpha k n st = Ok (store_B st r n v).
Proof.
  unfold gemm_val, gemm_task. intros Hr.
  replace (mt (opB st) - 1) with r by lia.
  destruct (tiles _ !! (0, k)) as [a|] eqn:Ha; [|discriminate].
  destruct (tiles _ !! (k, n)) as [b|] eqn:Hb; [|discriminate].
  destruct (tiles _ !! (r, n)) as [c|] eqn:Hc; [|discriminate].
  intros [= <-].
  rewrite (at_lookup _ _ _ _ Ha), (at_lookup _ _ _ _ Hb),
    (at_lookup _ _ _ _ Hc).
  reflexivity.
Qed.

Lemma trmm_val_local side diag alpha r n n' (st : operands) (v : tile) :
  n' <> n ->
  val_trmm side diag alpha r n (store_B st r n' v)
  = val_trmm side diag alpha r n st.
Proof.
  intros Hn. unfold trmm_val. rewrite lookup_store_B.
  case_decide as Hk; [injection Hk as ->; contradiction|]. reflexivity.
Qed.

Lemma gemm_val_local alpha r k n n' (st : operands) (v : tile) :
  n' <> n ->
  val_gemm alpha r k n (store_B st r n' v) = val_gemm alpha r k n st.
Proof.
  intros Hn. unfold gemm_val. rewrite !lookup_store_B.
  case_decide as Hk; [injection Hk as _ ->; contradiction|].
  case_decide as Hk'; [injection Hk' as ->; contradiction|]. reflexivity.
Qed.

(** The first loop: one [trmm] task per column of [B]. *)
Lemma trmm_sweep side diag alpha (r : Z) (l : list Z) (st : operands) :
  NoDup l -> mt (opB st) = r + 1 ->
  (forall n, n ∈ l -> is_Some (val_trmm side diag alpha r n st)) ->
  exists st', for_ l (run_trmm_task side diag alpha) st = Ok st'
    /\ opA st' = opA st
    /\ mt (opB st') = mt (opB st)
    /\ nt (opB st') = nt (opB st)
    /\ forall i j, tiles (opB st') !! (i, j)
                   = if decide (i = r /\ j ∈ l)
                     then val_trmm side diag alpha r j st
                     else tiles (opB st) !! (i, j).
Proof.
  apply for_row_update.
  - intros n s v. apply trmm_task_val.
  - intros n n' s v. apply trmm_val_local.
Qed.

(** One pass of the inner loop, for a fixed [k]. *)
Lemma gemm_sweep alpha (r k : Z) (l : list Z) (st : operands) :
  NoDup l -> mt (opB st) = r + 1 ->
  (forall n, n ∈ l -> is_Some (val_gemm alpha r k n st)) ->
  exists st', for_ l (run_gemm_task alpha k) st = Ok st'
    /\ opA st' = opA st
    /\ mt (opB st') = mt (opB st)
    /\ nt (opB st') = nt (opB st)
    /\ forall i j, tiles (opB st') !! (i, j)
                   = if decide (i = r /\ j ∈ l)
                     then val_gemm alpha r k j st
                     else tiles (opB st) !! (i, j).
Proof.
  apply for_row_update.
  - intros n s v. apply gemm_task_val.
  - intros n n' s v. apply gemm_val_local.
Qed.

(** The whole second loop nest: column [j] of row [r] accumulates one
    [gemm] per [k], in the order of [ks]; rows other than [r] are read
    only. *)
Lemma gemm_loops alpha (r : Z) (cols : list Z)
    (a : Z -> tile) (b : Z -> Z -> tile) :
  NoDup cols ->
  forall (ks : list Z) (st : operands) (c : Z -> tile),
    mt (opB st) = r + 1 ->
    (forall k, k ∈ ks ->
       k <> r /\ tiles (base (opA st)) !! (0, k) = Some (a k)
       /\ forall j, j ∈ cols -> tiles (opB st) !! (k, j) = Some (b k j)) ->
    (forall j, j ∈ cols -> tiles (opB st) !! (r, j) = Some (c j)) ->
    exists st',
      for_ ks (fun k => for_ cols (run_gemm_task alpha k)) st = Ok st'
      /\ opA st' = opA st
      /\ mt (opB st') = mt (opB st)
      /\ nt (opB st') = nt (opB st)
      /\ forall i j, tiles (opB st') !! (i, j)
           = if decide (i = r /\ j ∈ cols)
             then Some (fold_left
                          (fun acc k => kernel_gemm alpha (a k) (b k j) rI acc)
                          ks (c j))
             else tiles (opB st) !! (i, j).
Proof.
  intros Hnd ks. induction ks as [|k ks IH]; intros st c Hmt Hks Hc.
  - exists st. simpl. repeat split; trivial. intros i j.
    case_decide as Hd; trivial. destruct Hd as [-> Hj]. now apply Hc.
  - destruct (Hks k) as (Hkr & Ha & Hb); [left|].
    assert (Hval : forall n, n ∈ cols ->
              val_gemm alpha r k n st
              = Some (kernel_gemm alpha (a k) (b k n) rI (c n))).
    { intros n Hn. unfold gemm_val. now rewrite Ha, (Hb n Hn), (Hc n Hn). }
    destruct (gemm_sweep alpha r k cols st Hnd Hmt)
      as (st1 & Hrun1 & HA1 & Hm1 & Hn1 & Hlk1).
    { intros n Hn. rewrite (Hval n Hn). eauto. }
    destruct (IH st1
                (fun j => kernel_gemm alpha (a k) (b k j) rI (c j)))
      as (st' & Hrun & HA & Hm & Hn & Hlk).
    + congruence.
    + intros k' Hk'. destruct (Hks k') as (Hk'r & Ha' & Hb'); [now right|].
      rewrite HA1. repeat split; trivial. intros j Hj. rewrite Hlk1.
      case_decide as Hd; [destruct Hd as [-> _]; contradiction|].
      now apply Hb'.
    + intros j Hj. rewrite Hlk1. rewrite decide_True by now split.
      now apply Hval.
    + exists st'. simpl. rewrite Hrun1. simpl.
      repeat split; try congruence. intros i j. rewrite Hlk, Hlk1.
      case_decide; trivial.
Qed.

(** ** Frame of the task loops *)

Lemma frame_refl (st : Operands scalar_t) : frame st st.
Proof. now repeat split. Qed.

Lemma frame_trans (s1 s2 s3 : Operands scalar_t) :
  frame s1 s2 -> frame s2 s3 -> frame s1 s3.
Proof.
  intros (HA & Hm & Hn & Hl) (HA' & Hm' & Hn' & Hl').
  repeat split; try congruence.
  intros i j Hi. rewrite Hl', Hl; trivial. now rewrite Hm.
Qed.

Lemma frame_store_last (st : Operands scalar_t) (n : Z) (T : Tile scalar_t) :
  frame st (store_B st (mt (opB st) - 1) n T).
Proof.
  repeat split; trivial. intros i j Hi. simpl.
  apply lookup_insert_ne. intros [= <- _]. contradiction.
Qed.

Lemma for_frame (l : list Z)
    (body : Z -> Operands scalar_t -> result (Operands scalar_t)) :
  (forall i s s', body i s = Ok s' -> frame s s') ->
  forall s s', for_ l body s = Ok s' -> frame s s'.
Proof.
  intros Hbody. induction l as [|i l IH]; simpl; intros s s' Hrun.
  - injection Hrun as <-. apply frame_refl.
  - destruct (body i s) as [s1|f] eqn:H1; simpl in Hrun; [|discriminate].
    eapply frame_trans; eauto.
Qed.

Lemma trmm_task_frame side diag alpha n (s s' : Operands scalar_t) :
  trmm_task scalar_t rO rI radd rmul side diag alpha n s = Ok s' ->
  frame s s'.
Proof.
  unfold trmm_task.
  destruct (at_ _ _ 0 _) as [a|]; simpl; [|discriminate].
  destruct (at_ _ _ _ n) as [b|]; simpl; [|discriminate].
  intros [= <-]. apply frame_store_last.
Qed.

Lemma gemm_task_frame alpha k n (s s' : Operands scalar_t) :
  gemm_task scalar_t rO rI radd rmul alpha k n s = Ok s' -> frame s s'.
Proof.
  unfold gemm_task.
  destruct (at_ _ _ 0 k) as [a|]; simpl; [|discriminate].
  destruct (at_ _ _ k n) as [b|]; simpl; [|discriminate].
  destruct (at_ _ _ _ n) as [c|]; simpl; [|discriminate].
  intros [= <-]. apply frame_store_last.
Qed.

(** The tasks fail only on a tile that is not there, never on an
    assertion. *)
Lemma for_failure {S : Type} (P : failure -> Prop) (l : list Z)
    (body : Z -> S -> result S) :
  (forall i s f, body i s = Fail f -> P f) ->
  forall s f, for_ l body s = Fail f -> P f.
Proof.
  intros Hbody. induction l as [|i l IH]; simpl; intros s f Hrun.
  - discriminate.
  - destruct (body i s) as [s1|f1] eqn:H1; simpl in Hrun; eauto.
    injection Hrun as <-. eauto.
Qed.

Lemma at_failure (M : Matrix scalar_t) (i j : Z) (f : failure) :
  at_ scalar_t M i j = Fail f -> is_assertion f = false.
Proof. unfold at_. destruct (tiles M !! (i, j)); now intros [= <-]. Qed.

Lemma trmm_task_failure side diag alpha n (s : Operands scalar_t) f :
  trmm_task scalar_t rO rI radd rmul side diag alpha n s = Fail f ->
  is_assertion f = false.
Proof.
  unfold trmm_task.
  destruct (at_ _ _ 0 _) as [a|fa] eqn:Ha; simpl.
  2: { intros [= <-]. eapply at_failure; eauto. }
  destruct (at_ _ _ _ n) as [b|fb] eqn:Hb; simpl; [discriminate|].
  intros [= <-]. eapply at_failure; eauto.
Qed.

Lemma gemm_task_failure alpha k n (s : Operands scalar_t) f :
  gemm_task scalar_t rO rI radd rmul alpha k n s = Fail f ->
  is_assertion f = false.
Proof.
  unfold gemm_task.
  destruct (at_ _ _ 0 k) as [a|fa] eqn:Ha; simpl.
  2: { intros [= <-]. eapply at_failure; eauto. }
  destruct (at_ _ _ k n) as [b|fb] eqn:Hb; simpl.
  2: { intros [= <-]. eapply at_failure; eauto. }
  destruct (at_ _ _ (_ - 1) n) as [c|fc] eqn:Hc; simpl; [discriminate|].
  intros [= <-]. eapply at_failure; eauto.
Qed.

(** ** Contract of [trmm] *)

(** C8: [trmm] asserts [A.mt() == 1] and [A.nt() == B.mt()].  When both
    hold, no assertion fails; when either is violated, the run ends in a
    failed assertion, which aborts and yields no result. *)
Theorem trmm_assertions (side : Side) (diag : Diag) (alpha : scalar_t)
    (A : TriangularMatrix scalar_t) (B : Matrix scalar_t) (priority : Z) :
  (mt (base A) = 1 -> nt (base A) = mt B ->
   forall f, run_trmm side diag alpha A B priority = Fail f ->
             is_assertion f = false)
  /\ (mt (base A) <> 1 \/ nt (base A) <> mt B ->
      exists expr, run_trmm side diag alpha A B priority
                   = Fail (AssertionFailed expr)).
Proof.
  unfold trmm, trmm_HostTask. split.
  - intros -> ->. rewrite !Z.eqb_refl. simpl. intros f.
    destruct (for_ (upto (nt B)) _ _) as [st1|f1] eqn:H1; simpl.
    + destruct (for_ (downfrom _) _ st1) as [st2|f2] eqn:H2; simpl;
        [discriminate|].
      intros [= <-]. revert H2.
      apply (for_failure (fun f => is_assertion f = false)).
      intros k s f. apply (for_failure (fun f => is_assertion f = false)).
      intros n s' f'. apply gemm_task_failure.
    + intros [= <-]. revert H1.
      apply (for_failure (fun f => is_assertion f = false)).
      intros n s f. apply trmm_task_failure.
  - intros Hpre. destruct (Z.eqb_spec (mt (base A)) 1) as [Hm|Hm]; simpl.
    + destruct (Z.eqb_spec (nt (base A)) (mt B)) as [Hn|Hn]; simpl.
      * exfalso. tauto.
      * eauto.
    + eauto.
Qed.

(** C9: the priority has no influence on what [trmm] computes: with the
    other arguments the same, two priorities give the same outcome. *)
Theorem trmm_priority_irrelevant (side : Side) (diag : Diag)
    (alpha : scalar_t) (A : TriangularMatrix scalar_t) (B : Matrix scalar_t)
    (p1 p2 : Z) :
  run_trmm side diag alpha A B p1 = run_trmm side diag alpha A B p2.
Proof.
  (* neither the assertions nor the task loops read the priority *)
  unfold trmm, trmm_HostTask.
  reflexivity.
Qed.

(** C10: [trmm] writes tiles of the last tile row of [B] only: on exit [A]
    is what it was on entry, and so is every tile [B(k,n)] with
    [k < B.mt() - 1]. *)
Theorem trmm_frame (side : Side) (diag : Diag) (alpha : scalar_t)
    (A : TriangularMatrix scalar_t) (B : Matrix scalar_t) (priority : Z)
    (st : Operands scalar_t) :
  run_trmm side diag alpha A B priority = Ok st ->
  opA st = A
  /\ forall k n, k < mt B - 1 ->
                 tiles (opB st) !! (k, n) = tiles B !! (k, n).
Proof.
  unfold trmm, trmm_HostTask.
  destruct (assert (mt (base A) =? 1) _); simpl; [|discriminate].
  destruct (assert (nt (base A) =? mt B) _); simpl; [|discriminate].
  destruct (for_ (upto (nt B)) _ _) as [st1|f1] eqn:H1; simpl; [|discriminate].
  destruct (for_ (downfrom _) _ st1) as [st2|f2] eqn:H2; simpl;
    [|discriminate].
  intros [= <-].
  assert (Hf : frame (mkOperands scalar_t A B) st2).
  { eapply frame_trans.
    - eapply for_frame; [|exact H1]. intros n s s'. apply trmm_task_frame.
    - eapply for_frame; [|exact H2]. intros k s s'. apply for_frame.
      intros n t t'. apply gemm_task_frame. }
  destruct Hf as (HA & _ & _ & Hl). split; trivial.
  intros k n Hk. apply Hl. simpl. lia.
Qed.

End TrmmRun.

(** ** The block row computed by [trmm] *)

Section TrmmRow.

Variable scalar_t : Type.
Variables (rO rI : scalar_t).
Variables (radd rmul rsub : scalar_t -> scalar_t -> scalar_t).
Variable ropp : scalar_t -> scalar_t.

Abbreviation reference := (reference_last_row scalar_t rO rI radd rmul).

Lemma tile_of_lookup (M : Matrix scalar_t) (i j : Z) (T : Tile scalar_t) :
  tiles M !! (i, j) = Some T -> tile_of M i j = T.
Proof. unfold tile_of. now intros ->. Qed.

Hypothesis Rth : ring_theory rO rI radd rmul rsub ropp eq.

(** What the loops are written to compute.  In exact arithmetic, when every
    task is executed where it is created, [side] is [Left], and [A] is
    tiled 1 x K and [B] is tiled K x N with matching tile shapes and
    K >= 1, the run returns and leaves in every tile [B(K-1,n)] the value
    [alpha op(A(0,K-1)) B(K-1,n) + alpha (A(0,0) B(0,n) + ... +
    A(0,K-2) B(K-2,n))] computed from the tiles [B] had on entry. *)
Lemma serial_left_last_tile_row (diag : Diag) (alpha : scalar_t)
    (A : TriangularMatrix scalar_t) (B : Matrix scalar_t) (priority : Z) :
  tiled_conformally A B ->
  exists st,
    trmm scalar_t rO rI radd rmul Left diag alpha A B priority = Ok st
    /\ forall n, 0 <= n < nt B ->
         tiles (opB st) !! (mt B - 1, n)
         = Some (reference diag alpha A B n).
Proof.
  intros (HmA & HnA & HK & mb & kb & nb & Hkb & _ & _ & HA & HB).
  set (r := mt B - 1).
  unfold trmm, trmm_HostTask.
  rewrite HmA, HnA, !Z.eqb_refl. simpl.
  set (st0 := mkOperands scalar_t A B).
  assert (Hcols : forall n, n ∈ upto (nt B) <-> 0 <= n < nt B).
  { intros n. unfold upto. rewrite elem_of_seqZ. lia. }
  destruct (HA r) as (Al & HAl & HAls); [unfold r; lia|].
  assert (Hval0 : forall n, n ∈ upto (nt B) ->
            trmm_val scalar_t rO rI radd rmul Left diag alpha r n st0
            = Some (tile_trmm scalar_t rO rI radd rmul Left (uplo A) diag
                      alpha Al (tile_of B r n))).
  { intros n Hn. apply Hcols in Hn.
    destruct (HB r n) as (T & HT & _); [unfold r; lia|trivial|].
    rewrite (tile_of_lookup _ _ _ _ HT).
    unfold trmm_val. simpl. rewrite HnA. fold r.
    rewrite HAl, HT. reflexivity. }
  destruct (trmm_sweep scalar_t rO rI radd rmul Left diag alpha r
              (upto (nt B)) st0)
    as (st1 & Hrun1 & HA1 & Hm1 & Hn1 & Hlk1).
  { apply NoDup_seqZ. }
  { simpl. unfold r. lia. }
  { intros n Hn. rewrite (Hval0 n Hn). eauto. }
  rewrite Hrun1. simpl.
  destruct (gemm_loops scalar_t rO rI radd rmul alpha r (upto (nt B))
              (fun k => tile_of (base A) 0 k) (fun k j => tile_of B k j)
              (NoDup_seqZ _ _) (downfrom (mt B - 2)) st1
              (fun j => tile_trmm scalar_t rO rI radd rmul Left (uplo A) diag
                          alpha Al (tile_of B r j)))
    as (st2 & Hrun2 & HA2 & Hm2 & Hn2 & Hlk2).
  { rewrite Hm1. simpl. unfold r. lia. }
  { intros k Hk. unfold downfrom in Hk.
    rewrite list_elem_of_In, <- in_rev, <- list_elem_of_In, elem_of_seqZ in Hk.
    assert (Hkr : k <> r) by (unfold r; lia).
    split; [trivial|]. rewrite HA1. simpl. split.
    - destruct (HA k) as (T & HT & _); [lia|].
      now rewrite (tile_of_lookup _ _ _ _ HT).
    - intros j Hj. rewrite Hlk1.
      case_decide as Hd; [destruct Hd; contradiction|]. simpl.
      apply Hcols in Hj. destruct (HB k j) as (T & HT & _); [lia|trivial|].
      now rewrite (tile_of_lookup _ _ _ _ HT). }
  { intros j Hj. rewrite Hlk1. rewrite decide_True by now split.
    now apply Hval0. }
  rewrite Hrun2. simpl.
  exists st2. split; [reflexivity|].
  intros n Hn. rewrite Hlk2.
  rewrite decide_True by (split; [reflexivity|now apply Hcols]).
  f_equal. unfold downfrom.
  replace (mt B - 2 + 1) with (mt B - 1) by lia.
  pose proof (fold_left_rev_right
                (fun k acc => tile_gemm scalar_t rO radd rmul alpha
                                (tile_of (base A) 0 k) (tile_of B k n) rI acc)
                (rev (seqZ 0 (mt B - 1)))) as Hfold.
  simpl in Hfold. rewrite <- Hfold, rev_involutive. clear Hfold.
  destruct (HB r n) as (Bl & HBl & HBls); [unfold r; lia|trivial|].
  unfold reference_last_row. fold r.
  rewrite (tile_of_lookup _ _ _ _ HAl).
  apply (gemm_chain scalar_t rO rI radd rmul rsub ropp Rth alpha
           (tile_mb (tile_of B r n)) (tile_nb (tile_of B r n))
           _ (fun k => tile_of (base A) 0 k) (fun k => tile_of B k n)).
  unfold tile_trmm. apply tile_scale_shape.
  replace (tile_mb (tile_of B r n))
    with (tile_mb (tri scalar_t rO rI (uplo A) diag Al)).
  - apply tile_mul_shape.
  - rewrite tri_mb. rewrite (tile_of_lookup _ _ _ _ HBl).
    unfold tile_mb. destruct HAls as [-> _]. destruct HBls as [-> _].
    unfold r. now rewrite Hkb.
Qed.

End TrmmRow.

(** ** The run over the integers *)

(** C1: no [depend] clause orders the [trmm] task and the [gemm] tasks that
    write the same tile [B(K-1,n)], so in a parallel region the runtime may
    run the [gemm] task of a column first.  The diagonal-block multiply is
    then applied to the accumulated tile, and [B(K-1,0)] ends up as
    [[12 18] [60 86]] where the claim, and the run in the order of
    creation, have [[6 10] [10 10]]. *)
Theorem trmm_unordered_tasks_miss_row :
  tiled_conformally exA exB
  /\ schedule exA exB exRaced
  /\ (exists st,
        Ztrmm_scheduled exRaced Left NonUnit 2 exA exB 0 = Ok st
        /\ tiles (opB st) !! (mt exB - 1, 0) = Some [[12; 18]; [60; 86]])
  /\ Zreference NonUnit 2 exA exB 0 = [[6; 10]; [10; 10]]
  /\ (exists st,
        Ztrmm Left NonUnit 2 exA exB 0 = Ok st
        /\ tiles (opB st) !! (mt exB - 1, 0)
           = Some (Zreference NonUnit 2 exA exB 0)).
Proof.
  assert (Hshape : forall a b c d : Z,
            has_shape 2 2 ([[a; b]; [c; d]] : Tile Z)).
  { intros a b c d. split; [reflexivity|]. repeat constructor. }
  split.
  { split; [reflexivity|]. split; [reflexivity|]. split; [simpl; lia|].
    exists 2%nat, (fun _ => 2%nat), (fun _ => 2%nat).
    split; [reflexivity|]. split; [intros _; lia|]. split; [intros _; lia|].
    split.
    - intros k Hk. simpl in Hk.
      assert (Hc : k = 0 \/ k = 1) by lia.
      destruct Hc as [-> | ->]; eexists; (split; [reflexivity|apply Hshape]).
    - intros k n Hk Hn. simpl in Hk, Hn.
      assert (Hc : k = 0 \/ k = 1) by lia.
      assert (Hd : n = 0 \/ n = 1) by lia.
      destruct Hc as [-> | ->]; destruct Hd as [-> | ->]; eexists;
        (split; [reflexivity|apply Hshape]). }
  split.
  { unfold schedule.
    change (Permutation (rev (program_order exA exB)) (program_order exA exB)).
    apply Permutation_sym, Permutation_rev. }
  split; [eexists; split; [vm_compute; reflexivity|reflexivity]|].
  split; [reflexivity|].
  eexists. split; [vm_compute; reflexivity|reflexivity].
Qed.

Lemma trmm_assertions_witness :
  (forall f, Ztrmm Left NonUnit 2 exA exB 0 = Fail f ->
             is_assertion f = false)
  /\ (exists expr,
        Ztrmm Left NonUnit 2 exA oneB 0 = Fail (AssertionFailed expr)).
Proof.
  split.
  - apply (proj1 (trmm_assertions Z 0 1 Z.add Z.mul
                    Left NonUnit 2 exA exB 0)); reflexivity.
  - apply (proj2 (trmm_assertions Z 0 1 Z.add Z.mul
                    Left NonUnit 2 exA oneB 0)).
    right. simpl. lia.
Defined.

Lemma trmm_frame_witness :
  exists st,
    Ztrmm Left NonUnit 2 exA exB 0 = Ok st
    /\ opA st = exA
    /\ forall k n, k < mt exB - 1 ->
                   tiles (opB st) !! (k, n) = tiles exB !! (k, n).
Proof.
  eexists. split; [vm_compute; reflexivity|].
  apply (trmm_frame Z 0 1 Z.add Z.mul Left NonUnit 2 exA exB 0).
  vm_compute. reflexivity.
Defined.

(** The last tile row of [exB] after [trmm], and the rest of it. *)
Example trmm_example :
  exists st,
    Ztrmm Left NonUnit 2 exA exB 0 = Ok st
    /\ tiles (opB st) !! (1, 0) = Some [[6; 10]; [10; 10]]
    /\ tiles (opB st) !! (1, 1) = Some [[2; 12]; [16; 22]]
    /\ tiles (opB st) !! (0, 0) = Some [[1; 2]; [3; 4]].
Proof. eexists. split; [vm_compute; reflexivity|]. now vm_compute. Qed.

(** ** Signs of binary64 quotients *)

Section FloatSigns.

Variables p e : Z.

Lemma iter_pos_invariant {T : Type} (P : T -> Prop) (f : T -> T) :
  (forall x, P x -> P (f x)) ->
  forall n x, P x -> P (@SpecFloat.iter_pos T f n x).
Proof. intros Hf n. induction n as [n IH|n IH|]; simpl; auto. Qed.

Lemma shr_1_nonneg (mrs : shr_record) :
  0 <= shr_m mrs -> 0 <= shr_m (shr_1 mrs).
Proof.
  destruct mrs as [mm r s].
  destruct mm as [|[q|q|]|[q|q|]]; simpl; lia.
Qed.

Lemma shr_fexp_nonneg (mm ee : Z) (l : location) :
  0 <= mm -> 0 <= shr_m (fst (shr_fexp p e mm ee l)).
Proof.
  intros Hm. unfold shr_fexp, shr.
  assert (H0 : 0 <= shr_m (shr_record_of_loc mm l))
    by (destruct l as [|[]]; exact Hm).
  destruct (_ - ee)%Z; simpl; trivial.
  apply (iter_pos_invariant (fun mrs => 0 <= shr_m mrs)); trivial.
  apply shr_1_nonneg.
Qed.

Lemma round_nearest_even_nonneg (mm : Z) (l : location) :
  0 <= mm -> 0 <= round_nearest_even mm l.
Proof.
  destruct l as [|[]]; simpl; try destruct (Z.even mm); lia.
Qed.

Lemma binary_round_aux_signed (s : bool) (mm ee : Z) (l : location) :
  0 <= mm -> signed s (binary_round_aux p e s mm ee l).
Proof.
  intros Hm. unfold binary_round_aux.
  pose proof (shr_fexp_nonneg mm ee l Hm) as H1.
  destruct (shr_fexp p e mm ee l) as [mrs' e']. simpl in H1.
  pose proof (shr_fexp_nonneg _ e' loc_Exact
                (round_nearest_even_nonneg _ (loc_of_shr_record mrs') H1))
    as H2.
  destruct (shr_fexp p e _ e' loc_Exact) as [mrs'' e'']. simpl in H2.
  destruct (shr_m mrs'') as [|q|q]; simpl; trivial.
  - destruct (_ <=? _); reflexivity.
  - lia.
Qed.

Lemma SFdiv_core_nonneg (m1 m2 : positive) (e1 e2 : Z) :
  0 <= fst (fst (SFdiv_core_binary p e (Zpos m1) e1 (Zpos m2) e2)).
Proof.
  unfold SFdiv_core_binary.
  set (s := (_ - _ - _)%Z).
  set (m' := match s with Z0 => _ | Zpos _ => _ | Zneg _ => _ end).
  assert (Hm' : 0 <= m').
  { unfold m'. destruct s; try lia. apply Z.shiftl_nonneg. lia. }
  pose proof (Z.div_pos m' (Zpos m2) Hm' ltac:(lia)) as Hq.
  unfold Z.div in Hq. destruct (Z.div_eucl m' (Zpos m2)) as [q r].
  exact Hq.
Qed.

(** The quotient of a non-negative number by a positive one carries a clear
    sign bit, but for infinity over infinity, which is NaN. *)
Lemma SFdiv_signed (x y : spec_float) :
  signed false x -> positive_float y ->
  signed false (SFdiv p e x y)
  \/ (x = S754_infinity false /\ y = S754_infinity false).
Proof.
  destruct x as [sx|sx| |sx mx ex]; simpl; try contradiction; intros ->;
    destruct y as [sy|sy| |sy my ey]; simpl; try contradiction;
    destruct sy; try contradiction; intros _; auto.
  left.
  pose proof (SFdiv_core_nonneg mx my ex ey) as Hq.
  destruct (SFdiv_core_binary p e (Zpos mx) ex (Zpos my) ey) as [[mz ez] lz].
  apply binary_round_aux_signed. exact Hq.
Qed.

End FloatSigns.

Lemma signed_nonneg (x : real_t) : signed false x -> SFleb r0 x = true.
Proof. destruct x as [s|s| |s mm ee]; simpl; try contradiction; now intros ->. Qed.

Lemma r1_positive : positive_float r1.
Proof. exact I. Qed.

Lemma positive_gt (x : real_t) : SFltb r0 x = true -> positive_float x.
Proof. destruct x as [s|s| |s mm ee]; try destruct s; simpl; try discriminate; trivial. Qed.

Lemma nonzero_nonneg_positive (x : real_t) :
  SFleb r0 x = true -> SFeqb x r0 = false -> positive_float x.
Proof. destruct x as [s|s| |s mm ee]; try destruct s; simpl; try discriminate; trivial. Qed.

Lemma positive_signed (x : real_t) : positive_float x -> signed false x.
Proof. destruct x as [s|s| |s mm ee]; try destruct s; simpl; try contradiction; trivial. Qed.

(** The quotient [(1 / a) / Anorm] of a positive [Anorm] and a nonzero
    [a >= 0] is infinity over infinity, hence NaN, when [Anorm] is
    [+infinity] and [1 / a] overflows; in every other case it is a
    non-negative number. *)
Lemma rcond_sign (Anorm a : real_t) :
  SFltb r0 Anorm = true -> SFleb r0 a = true -> SFeqb a r0 = false ->
  (Anorm = S754_infinity false /\ rdiv r1 a = S754_infinity false ->
   rdiv (rdiv r1 a) Anorm = S754_nan)
  /\ (~ (Anorm = S754_infinity false /\ rdiv r1 a = S754_infinity false) ->
      SFleb r0 (rdiv (rdiv r1 a) Anorm) = true).
Proof.
  intros HA Ha Ha0. split.
  - intros [-> ->]. reflexivity.
  - intros Hfin.
    apply positive_gt in HA.
    pose proof (nonzero_nonneg_positive a Ha Ha0) as Hp.
    destruct (SFdiv_signed prec emax r1 a (positive_signed _ r1_positive) Hp)
      as [Hq|[Hq _]]; [|discriminate Hq].
    fold (rdiv r1 a) in Hq.
    destruct (SFdiv_signed prec emax (rdiv r1 a) Anorm Hq HA)
      as [Hv|[Hv1 Hv2]].
    + fold (rdiv (rdiv r1 a) Anorm) in Hv. now apply signed_nonneg.
    + exfalso. apply Hfin. now split.
Qed.

(** ** Lockstep of the processes *)

Section GecondestRun.

Variables scalar_t MatData Vec IVec Options : Type.
Variable scalar_one : scalar_t.
Variable norm1est : World Vec IVec -> World Vec IVec.
Variable trsm : Side -> scalar_t -> TriView MatData -> Options ->
                (rank -> Vec) -> (rank -> Vec).
Variables (X0 V0 : rank -> Vec) (isgn0 : rank -> IVec).

Abbreviation world := (World Vec IVec).
Notation "a >> b" := (then_ Vec IVec a b) (at level 61, left associativity).
Abbreviation step_norm1est := (internal_norm1est Vec IVec norm1est).
Abbreviation step_Bcast_isave := (MPI_Bcast_isave Vec IVec).
Abbreviation step_Bcast_kase := (MPI_Bcast_kase Vec IVec).
Abbreviation run_loop_body :=
  (loop_body scalar_t MatData Vec IVec Options norm1est trsm).
Abbreviation run_while :=
  (while_kase scalar_t MatData Vec IVec Options norm1est trsm).
Abbreviation run_round :=
  (round scalar_t MatData Vec IVec Options norm1est trsm).
Abbreviation run_rounds :=
  (rounds scalar_t MatData Vec IVec Options norm1est trsm).
Abbreviation run_world_at :=
  (world_at scalar_t MatData Vec IVec Options scalar_one norm1est trsm
     X0 V0 isgn0).
Abbreviation run_gecondest :=
  (gecondest scalar_t MatData Vec IVec Options scalar_one norm1est trsm
     X0 V0 isgn0).

Lemma cold_start_agree (root : rank) (w : world) :
  agree (snd ((step_norm1est >> step_Bcast_isave root
               >> step_Bcast_kase root) w)).
Proof. intros p q. simpl. split; reflexivity. Qed.

Lemma loop_body_agree (first : bool) (root : rank) alpha L U opts
    (w : world) :
  agree (snd (run_loop_body first root alpha L U opts w)).
Proof. intros p q. destruct first; simpl; split; reflexivity. Qed.

Lemma loop_body_trace (first : bool) (root : rank) alpha L U opts
    (w : world) :
  exists u1 d1 o1 u2 d2 o2,
    fst (run_loop_body first root alpha L U opts w)
    = [EvTrsm u1 d1 o1; EvTrsm u2 d2 o2;
       EvNorm1est; EvBcast_isave root; EvBcast_kase root].
Proof. destruct first; simpl; eauto 10. Qed.

Lemma unanimous_const (n : nat) (f : rank -> bool) :
  (forall p, f p = f O) -> unanimous n f = Some (f O).
Proof.
  intros Hf. unfold unanimous.
  replace (forallb _ _) with true; trivial.
  symmetry. apply forallb_forall. intros p _. rewrite Hf.
  now destruct (f O).
Qed.

Lemma held_agree (n : nat) (w : world) (x y : Z * (Z * Z * Z * Z)) :
  agree w -> In x (held Vec IVec n w) -> In y (held Vec IVec n w) -> x = y.
Proof.
  intros Hw Hx Hy. unfold held in *.
  apply in_map_iff in Hx as (p & <- & _).
  apply in_map_iff in Hy as (q & <- & _).
  destruct (Hw p q) as [-> ->]. reflexivity.
Qed.

Lemma followed_nil (root : rank) : followed_by_bcasts root [].
Proof. intros [|e pre] post H; discriminate H. Qed.

Lemma followed_other (root : rank) (e : event) (tr : list event) :
  e <> EvNorm1est -> followed_by_bcasts root tr ->
  followed_by_bcasts root (e :: tr).
Proof.
  intros He Htr [|e' pre] post H; simpl in H.
  - injection H as -> _. contradiction.
  - injection H as _ H. eauto.
Qed.

Lemma followed_estimate (root : rank) (tr : list event) :
  followed_by_bcasts root tr ->
  followed_by_bcasts root
    (EvNorm1est :: EvBcast_isave root :: EvBcast_kase root :: tr).
Proof.
  intros Htr [|e pre] post H; simpl in H.
  - injection H as <-. eauto.
  - injection H as _ H.
    revert H. apply (followed_other root (EvBcast_isave root)
                       (EvBcast_kase root :: tr)); [discriminate|].
    apply followed_other; [discriminate|exact Htr].
Qed.

Lemma tests_agree_nil : tests_agree [].
Proof. intros h []. Qed.

Lemma tests_agree_other (e : event) (tr : list event) :
  (forall h, e <> EvTest h) -> tests_agree tr -> tests_agree (e :: tr).
Proof.
  intros He Htr h [Hh|Hh]; [|now apply Htr].
  subst e. exfalso. now apply (He h).
Qed.

Lemma tests_agree_test (n : nat) (w : world) (tr : list event) :
  agree w -> tests_agree tr -> tests_agree (EvTest (held Vec IVec n w) :: tr).
Proof.
  intros Hw Htr h [Hh|Hh]; [|now apply Htr].
  injection Hh as <-. intros x y. now apply held_agree.
Qed.

Lemma unanimous_kase (n : nat) (w : world) (g : Z -> bool) (p : rank) :
  agree w ->
  unanimous n (fun q => g (kase (w q))) = Some (g (kase (w p))).
Proof.
  intros Hw. rewrite (unanimous_const n (fun q => g (kase (w q)))).
  - now destruct (Hw O p) as [-> _].
  - intros q. now destruct (Hw q O) as [-> _].
Qed.

(** The loop never leaves the processes on different branches, and its
    trace keeps the broadcast discipline. *)
Lemma while_kase_lockstep (n : nat) (root : rank) (kase1 : Z) alpha L U opts
    (Anorm : real_t) (fuel : nat) :
  forall w : world, agree w ->
    followed_by_bcasts root
      (fst (run_while fuel n root kase1 alpha L U opts Anorm w))
    /\ tests_agree (fst (run_while fuel n root kase1 alpha L U opts Anorm w))
    /\ snd (run_while fuel n root kase1 alpha L U opts Anorm w) <> Desync.
Proof.
  induction fuel as [|fuel IH]; intros w Hw; simpl.
  - split; [apply followed_nil|]. split; [apply tests_agree_nil|discriminate].
  - rewrite (unanimous_kase n w (fun k => negb (k =? 0)) root Hw).
    destruct (negb (kase (w root) =? 0)).
    + rewrite (unanimous_kase n w (fun k => k =? kase1) root Hw).
      destruct (loop_body_trace (kase (w root) =? kase1) root alpha L U
                  opts w) as (u1 & d1 & o1 & u2 & d2 & o2 & Hev).
      pose proof (loop_body_agree (kase (w root) =? kase1) root alpha L U
                    opts w) as Hw'.
      destruct (run_loop_body _ root alpha L U opts w) as [ev w'].
      simpl in Hev, Hw'. subst ev.
      destruct (IH w' Hw') as (Hf & Ht & Hd).
      destruct (run_while fuel n root kase1 alpha L U opts Anorm w')
        as [evs out].
      simpl in *. split; [|split; trivial].
      * repeat (apply followed_other; [discriminate|]).
        now apply followed_estimate.
      * apply tests_agree_test; trivial.
        repeat (apply tests_agree_other; [discriminate|]). exact Ht.
    + simpl. split; [|split; [|discriminate]].
      * apply followed_other; [discriminate|apply followed_nil].
      * apply tests_agree_test; [trivial|apply tests_agree_nil].
Qed.

(** Once the root's request code is zero at the head of the loop, every
    process returns, in that same trip. *)
Lemma while_kase_returns (n : nat) (root : rank) (kase1 : Z) alpha L U opts
    (Anorm : real_t) (r : nat) :
  forall (fuel : nat) (w : world),
    agree w -> (r < fuel)%nat ->
    (forall j, (j < r)%nat ->
       kase (run_rounds j root kase1 alpha L U opts w root) <> 0) ->
    kase (run_rounds r root kase1 alpha L U opts w root) = 0 ->
    exists tr,
      run_while fuel n root kase1 alpha L U opts Anorm w
      = (tr, Returns (fun p =>
               rcond_of Anorm
                 (Ainvnorm
                    (run_rounds r root kase1 alpha L U opts w p)))).
Proof.
  induction r as [|r IH]; intros fuel w Hw Hfuel Hrun Hstop;
    (destruct fuel as [|fuel]; [lia|]); simpl in *.
  - rewrite (unanimous_kase n w (fun k => negb (k =? 0)) root Hw).
    rewrite Hstop. simpl. eauto.
  - rewrite (unanimous_kase n w (fun k => negb (k =? 0)) root Hw).
    pose proof (Hrun O ltac:(lia)) as H0. simpl in H0.
    apply Z.eqb_neq in H0. rewrite H0. simpl.
    rewrite (unanimous_kase n w (fun k => k =? kase1) root Hw).
    destruct (IH fuel (run_round root kase1 alpha L U opts w)) as (tr & Htr).
    + apply loop_body_agree.
    + lia.
    + intros j Hj. apply (Hrun (S j)). lia.
    + exact Hstop.
    + unfold round in Htr |- *.
      destruct (run_loop_body _ root alpha L U opts w) as [ev w'].
      simpl in Htr |- *. rewrite Htr. eauto.
Qed.

Lemma positive_passes_checks (Anorm : real_t) :
  SFltb r0 Anorm = true ->
  SFltb Anorm r0 || isnan Anorm = false /\ SFeqb Anorm r0 = false.
Proof.
  destruct Anorm as [s|s| |s mm ee]; try destruct s; simpl;
    try discriminate; auto.
Qed.

Lemma nonneg_passes_checks (Anorm : real_t) :
  SFleb r0 Anorm = true -> SFltb Anorm r0 || isnan Anorm = false.
Proof.
  destruct Anorm as [s|s| |s mm ee]; try destruct s; simpl;
    try discriminate; auto.
Qed.

Lemma zero_passes_checks (Anorm : real_t) :
  SFeqb Anorm r0 = true -> SFltb Anorm r0 || isnan Anorm = false.
Proof.
  destruct Anorm as [s|s| |s mm ee]; try destruct s; simpl;
    try discriminate; auto.
Qed.

(** C2: in every run of [gecondest], each call of the estimator, the first
    and the last included, is followed at once by the broadcast of [isave]
    and then by that of [kase] from the owner of tile (0,0); whenever the
    loop condition is tested, all processes hold the same [kase] and the
    same [isave]; and the processes never part ways, so they leave the loop
    in the same round. *)
Theorem gecondest_lockstep (fuel : nat) (in_norm : Norm)
    (A : DistMatrix MatData) (Anorm : real_t) (opts : Options) :
  followed_by_bcasts (tileRankFunc A 0 0)
    (fst (run_gecondest fuel in_norm A Anorm opts))
  /\ tests_agree (fst (run_gecondest fuel in_norm A Anorm opts))
  /\ snd (run_gecondest fuel in_norm A Anorm opts) <> Desync.
Proof.
  assert (Hquiet : forall what rc,
            (followed_by_bcasts (tileRankFunc A 0 0) []
             /\ tests_agree [] /\ Throws what <> Desync)
            /\ (followed_by_bcasts (tileRankFunc A 0 0) []
                /\ tests_agree [] /\ Returns rc <> Desync)).
  { intros what rc.
    repeat split; try apply followed_nil; try apply tests_agree_nil;
      discriminate. }
  unfold gecondest.
  destruct in_norm; simpl; try apply (Hquiet "invalid norm."%string (fun _ => r0));
    (destruct (SFltb Anorm r0 || isnan Anorm);
     [apply (Hquiet "invalid Anorm"%string (fun _ => r0))|]);
    (destruct (m A <=? 1); [apply (Hquiet ""%string (fun _ => r1))|]);
    (destruct (SFeqb Anorm r0); [apply (Hquiet ""%string (fun _ => r0))|]);
    match goal with
    | |- context [run_while fuel ?n ?root ?k1 ?al ?L ?U opts Anorm ?w] =>
        destruct (while_kase_lockstep n root k1 al L U opts Anorm fuel w)
          as (Hf & Ht & Hd); [apply (cold_start_agree root)|];
        destruct (run_while fuel n root k1 al L U opts Anorm w) as [evs out]
    end;
    simpl in *;
    (split; [now apply followed_estimate|]);
    (split; [|exact Hd]);
    repeat (apply tests_agree_other; [discriminate|]); exact Ht.
Qed.

(** C3 (as amended): for a valid norm, [m > 1] and [Anorm > 0], if the
    request code first becomes zero at the [r]-th test of the loop
    condition, then [gecondest] returns, on every process,
    [(1 / Ainvnorm) / Anorm] when its final [Ainvnorm] is nonzero and [0]
    when it is zero.  When [Ainvnorm >= 0] the value returned is
    non-negative, but for one case: [Ainvnorm] is nonzero, [Anorm] is
    [+infinity] and [1 / Ainvnorm] overflows to [+infinity].  There, and
    only there, the value returned is NaN. *)
Theorem gecondest_rcond (in_norm : Norm) (A : DistMatrix MatData)
    (Anorm : real_t) (opts : Options) (r fuel : nat) :
  in_norm = One \/ in_norm = Inf ->
  1 < m A ->
  SFltb r0 Anorm = true ->
  (forall j, (j < r)%nat ->
     kase (run_world_at j in_norm A opts (tileRankFunc A 0 0)) <> 0) ->
  kase (run_world_at r in_norm A opts (tileRankFunc A 0 0)) = 0 ->
  (r < fuel)%nat ->
  exists tr rc,
    run_gecondest fuel in_norm A Anorm opts = (tr, Returns rc)
    /\ forall p,
         let a := Ainvnorm (run_world_at r in_norm A opts p) in
         (SFeqb a r0 = false -> rc p = rdiv (rdiv r1 a) Anorm)
         /\ (SFeqb a r0 = true -> rc p = r0)
         /\ (SFleb r0 a = true ->
             let overflow :=
               SFeqb a r0 = false /\ Anorm = S754_infinity false
               /\ rdiv r1 a = S754_infinity false in
             (overflow -> rc p = S754_nan)
             /\ (~ overflow -> SFleb r0 (rc p) = true)).
Proof.
  intros Hnorm Hm HA Hrun Hstop Hfuel.
  destruct (positive_passes_checks Anorm HA) as [Hc1 Hc2].
  assert (Hm' : (m A <=? 1) = false) by (apply Z.leb_gt; lia).
  unfold world_at in *.
  set (root := tileRankFunc A 0 0) in *.
  set (w1 := snd (_ _)) in *.
  destruct (while_kase_returns (mpiSize A) root (kase1_of in_norm) scalar_one
              (mkTri MatData Lower Unit NoTrans A)
              (mkTri MatData Upper NonUnit NoTrans A) opts Anorm r fuel w1)
    as (tr & Htr); trivial.
  { apply cold_start_agree. }
  exists ([EvNorm1est; EvBcast_isave root; EvBcast_kase root] ++ tr).
  exists (fun p =>
            rcond_of Anorm
              (Ainvnorm
                 (run_rounds r root (kase1_of in_norm) scalar_one
                    (mkTri MatData Lower Unit NoTrans A)
                    (mkTri MatData Upper NonUnit NoTrans A) opts w1 p))).
  split.
  - unfold gecondest.
    destruct Hnorm as [-> | ->]; simpl; rewrite Hc1, Hm', Hc2;
      simpl in Htr; fold root; unfold w1 in Htr; simpl in Htr;
      rewrite Htr; reflexivity.
  - intros p. set (a := Ainvnorm _). unfold rcond_of.
    destruct (SFeqb a r0) eqn:Ha; simpl.
    + split; [discriminate|]. split; [trivial|]. intros _. split.
      * intros (Hne & _). discriminate Hne.
      * intros _. reflexivity.
    + split; [trivial|]. split; [discriminate|]. intros Hge.
      destruct (rcond_sign Anorm a HA Hge Ha) as [Hnan Hpos]. split.
      * intros (_ & Hinf). now apply Hnan.
      * intros Hfin. apply Hpos. intros Hinf. apply Hfin.
        split; [reflexivity|exact Hinf].
Qed.

(** C4 (as amended): for a valid norm and [m > 1], if [Anorm == 0] then
    [gecondest] returns exactly [0.0] and the estimator is never called. *)
Theorem gecondest_zero_Anorm (fuel : nat) (in_norm : Norm)
    (A : DistMatrix MatData) (Anorm : real_t) (opts : Options) :
  in_norm = One \/ in_norm = Inf ->
  1 < m A ->
  SFeqb Anorm r0 = true ->
  run_gecondest fuel in_norm A Anorm opts = ([], Returns (fun _ => r0)).
Proof.
  intros Hnorm Hm HA.
  pose proof (zero_passes_checks Anorm HA) as Hc.
  assert (Hm' : (m A <=? 1) = false) by (apply Z.leb_gt; lia).
  unfold gecondest.
  destruct Hnorm as [-> | ->]; simpl; now rewrite Hc, Hm', HA.
Qed.

(** C5: for a valid norm, [m <= 1] and [Anorm] non-negative (hence not
    NaN), [gecondest] returns exactly [1.0] and the estimator is never
    called. *)
Theorem gecondest_trivial_dimension (fuel : nat) (in_norm : Norm)
    (A : DistMatrix MatData) (Anorm : real_t) (opts : Options) :
  in_norm = One \/ in_norm = Inf ->
  m A <= 1 ->
  SFleb r0 Anorm = true ->
  run_gecondest fuel in_norm A Anorm opts = ([], Returns (fun _ => r1)).
Proof.
  intros Hnorm Hm HA.
  pose proof (nonneg_passes_checks Anorm HA) as Hc.
  assert (Hm' : (m A <=? 1) = true) by (apply Z.leb_le; lia).
  unfold gecondest.
  destruct Hnorm as [-> | ->]; simpl; now rewrite Hc, Hm'.
Qed.

(** C6: for every norm selector, valid or not, a negative or NaN [Anorm]
    makes [gecondest] throw; no number is returned. *)
Theorem gecondest_invalid_Anorm (fuel : nat) (in_norm : Norm)
    (A : DistMatrix MatData) (Anorm : real_t) (opts : Options) :
  SFltb Anorm r0 = true \/ isnan Anorm = true ->
  exists what, run_gecondest fuel in_norm A Anorm opts = ([], Throws what).
Proof.
  intros HA.
  assert (Hc : SFltb Anorm r0 || isnan Anorm = true)
    by (apply orb_true_iff; exact HA).
  unfold gecondest. destruct in_norm; simpl; rewrite ?Hc; eauto.
Qed.

(** C7: a norm selector that is neither [One] nor [Inf] makes [gecondest]
    throw, whatever the matrix and [Anorm]. *)
Theorem gecondest_invalid_norm (fuel : nat) (in_norm : Norm)
    (A : DistMatrix MatData) (Anorm : real_t) (opts : Options) :
  in_norm <> One -> in_norm <> Inf ->
  run_gecondest fuel in_norm A Anorm opts = ([], Throws "invalid norm.").
Proof.
  intros H1 H2. unfold gecondest. destruct in_norm; try reflexivity;
    contradiction.
Qed.

End GecondestRun.

(** ** The run with the three-step estimator *)

(** The estimate 0.5 for the norm of the inverse and the norm 8 give
    [rcond = 0.25] on every process, after three estimator steps. *)
Example toy_run :
  fst (toy_gecondest r_half 5 One (toyA 4) r_eight tt)
  = [EvNorm1est; EvBcast_isave 1%nat; EvBcast_kase 1%nat;
     EvTest [(1, (1, 0, 0, 0)); (1, (1, 0, 0, 0)); (1, (1, 0, 0, 0))];
     EvTrsm Lower Unit NoTrans; EvTrsm Upper NonUnit NoTrans;
     EvNorm1est; EvBcast_isave 1%nat; EvBcast_kase 1%nat;
     EvTest [(2, (2, 0, 0, 0)); (2, (2, 0, 0, 0)); (2, (2, 0, 0, 0))];
     EvTrsm Upper NonUnit ConjTrans; EvTrsm Lower Unit ConjTrans;
     EvNorm1est; EvBcast_isave 1%nat; EvBcast_kase 1%nat;
     EvTest [(0, (3, 0, 0, 0)); (0, (3, 0, 0, 0)); (0, (3, 0, 0, 0))]]
  /\ match snd (toy_gecondest r_half 5 One (toyA 4) r_eight tt) with
     | Returns rc =>
         rc 0%nat = S754_finite false 4503599627370496 (-54)
         /\ rc 1%nat = rc 0%nat /\ rc 2%nat = rc 0%nat
     | _ => False
     end.
Proof. split; [reflexivity|]. now vm_compute. Qed.

Lemma gecondest_rcond_witness :
  1 < m (toyA 4)
  /\ SFltb r0 r_eight = true
  /\ kase (toy_world_at r_half 2 One (toyA 4) 1%nat) = 0
  /\ exists tr rc,
       toy_gecondest r_half 5 One (toyA 4) r_eight tt = (tr, Returns rc)
       /\ forall p,
            let a := Ainvnorm (toy_world_at r_half 2 One (toyA 4) p) in
            (SFeqb a r0 = false -> rc p = rdiv (rdiv r1 a) r_eight)
            /\ (SFeqb a r0 = true -> rc p = r0)
            /\ (SFleb r0 a = true ->
                let overflow :=
                  SFeqb a r0 = false /\ r_eight = S754_infinity false
                  /\ rdiv r1 a = S754_infinity false in
                (overflow -> rc p = S754_nan)
                /\ (~ overflow -> SFleb r0 (rc p) = true)).
Proof.
  split; [simpl; lia|]. split; [reflexivity|]. split; [reflexivity|].
  apply (gecondest_rcond Z unit unit unit unit 1 (toy_norm1est r_half)
           toy_trsm (fun _ => tt) (fun _ => tt) (fun _ => tt)
           One (toyA 4) r_eight tt 2 5).
  - left. reflexivity.
  - simpl. lia.
  - reflexivity.
  - intros j Hj. destruct j as [|[|j]]; [discriminate|discriminate|lia].
  - reflexivity.
  - lia.
Defined.

(** C3 does not hold as stated: with [Anorm = +infinity] and an estimate so
    small that its reciprocal overflows, [gecondest] returns
    [infinity / infinity], which is NaN and not a non-negative number. *)
Lemma gecondest_rcond_nan :
  1 < m (toyA 4)
  /\ SFltb r0 r_inf = true
  /\ valid_binary prec emax r_tiny = true
  /\ kase (toy_world_at r_tiny 2 One (toyA 4) 1%nat) = 0
  /\ SFleb r0 (Ainvnorm (toy_world_at r_tiny 2 One (toyA 4) 0%nat)) = true
  /\ exists tr rc,
       toy_gecondest r_tiny 5 One (toyA 4) r_inf tt = (tr, Returns rc)
       /\ rc 0%nat = S754_nan
       /\ SFleb r0 (rc 0%nat) = false.
Proof.
  split; [simpl; lia|]. do 4 (split; [reflexivity|]).
  eexists. eexists. split; [vm_compute; reflexivity|].
  split; reflexivity.
Qed.

Lemma gecondest_zero_Anorm_witness :
  1 < m (toyA 4)
  /\ SFeqb (S754_zero true) r0 = true
  /\ toy_gecondest r_half 5 Inf (toyA 4) (S754_zero true) tt
     = ([], Returns (fun _ => r0)).
Proof.
  split; [simpl; lia|]. split; [reflexivity|].
  apply (gecondest_zero_Anorm Z unit unit unit unit 1 (toy_norm1est r_half)
           toy_trsm (fun _ => tt) (fun _ => tt) (fun _ => tt)
           5%nat Inf (toyA 4) (S754_zero true) tt).
  - right. reflexivity.
  - simpl. lia.
  - reflexivity.
Defined.

(** C4 does not hold as stated: a matrix with a single row is answered
    with 1.0 before [Anorm] is compared to zero. *)
Lemma gecondest_zero_Anorm_single_row :
  SFeqb r0 r0 = true
  /\ exists rc,
       toy_gecondest r_half 5 One (toyA 1) r0 tt = ([], Returns rc)
       /\ rc 0%nat = r1
       /\ rc 0%nat <> r0.
Proof.
  split; [reflexivity|]. eexists. split; [reflexivity|].
  split; [reflexivity|]. discriminate.
Qed.

Lemma gecondest_trivial_dimension_witness :
  m (toyA 1) <= 1
  /\ SFleb r0 r_eight = true
  /\ toy_gecondest r_half 5 One (toyA 1) r_eight tt
     = ([], Returns (fun _ => r1)).
Proof.
  split; [simpl; lia|]. split; [reflexivity|].
  apply (gecondest_trivial_dimension Z unit unit unit unit 1
           (toy_norm1est r_half) toy_trsm
           (fun _ => tt) (fun _ => tt) (fun _ => tt)
           5%nat One (toyA 1) r_eight tt).
  - left. reflexivity.
  - simpl. lia.
  - reflexivity.
Defined.

Lemma gecondest_invalid_Anorm_witness :
  isnan S754_nan = true
  /\ exists what,
       toy_gecondest r_half 5 Fro (toyA 4) S754_nan tt = ([], Throws what).
Proof.
  split; [reflexivity|].
  apply (gecondest_invalid_Anorm Z unit unit unit unit 1
           (toy_norm1est r_half) toy_trsm
           (fun _ => tt) (fun _ => tt) (fun _ => tt)
           5%nat Fro (toyA 4) S754_nan tt).
  right. reflexivity.
Defined.

Lemma gecondest_invalid_norm_witness :
  toy_gecondest r_half 5 Fro (toyA 4) r_eight tt
  = ([], Throws "invalid norm.").
Proof.
  apply (gecondest_invalid_norm Z unit unit unit unit 1
           (toy_norm1est r_half) toy_trsm
           (fun _ => tt) (fun _ => tt) (fun _ => tt)
           5%nat Fro (toyA 4) r_eight tt); discriminate.
Defined.

(** * Part III: more of what the programs do *)

(** ** The run in the order of creation *)

Section TrmmMore.

Variable scalar_t : Type.
Variables (rO rI : scalar_t).
Variables (radd rmul : scalar_t -> scalar_t -> scalar_t).

Abbreviation gemm_step :=
  (fun alpha A B n =>
     fun (acc : Tile scalar_t) (k : Z) =>
       tile_gemm scalar_t rO radd rmul alpha
         (tile_of (base A) 0 k) (tile_of B k n) rI acc).

(** The loops leave in [B(K-1,n)] the diagonal [trmm] followed by the
    [gemm]s in the order of the [k] loop. *)
Lemma last_row_accumulates (side : Side) (diag : Diag) (alpha : scalar_t)
    (A : TriangularMatrix scalar_t) (B : Matrix scalar_t) (priority : Z) :
  tiles_present A B ->
  exists st,
    trmm scalar_t rO rI radd rmul side diag alpha A B priority = Ok st
    /\ forall n, 0 <= n < nt B ->
         tiles (opB st) !! (mt B - 1, n)
         = Some (fold_left (gemm_step alpha A B n) (downfrom (mt B - 2))
                   (tile_trmm scalar_t rO rI radd rmul side (uplo A) diag
                      alpha (tile_of (base A) 0 (mt B - 1))
                      (tile_of B (mt B - 1) n))).
Proof.
  intros (HmA & HnA & HK & HA & HB).
  set (r := mt B - 1).
  unfold trmm, trmm_HostTask.
  rewrite HmA, HnA, !Z.eqb_refl. simpl.
  set (st0 := mkOperands scalar_t A B).
  assert (Hcols : forall n, n ∈ upto (nt B) <-> 0 <= n < nt B).
  { intros n. unfold upto. rewrite elem_of_seqZ. lia. }
  destruct (HA r) as (Al & HAl); [unfold r; lia|].
  assert (Hval0 : forall n, n ∈ upto (nt B) ->
            trmm_val scalar_t rO rI radd rmul side diag alpha r n st0
            = Some (tile_trmm scalar_t rO rI radd rmul side (uplo A) diag
                      alpha Al (tile_of B r n))).
  { intros n Hn. apply Hcols in Hn.
    destruct (HB r n) as (T & HT); [unfold r; lia|trivial|].
    rewrite (tile_of_lookup _ _ _ _ _ HT).
    unfold trmm_val. simpl. rewrite HnA. fold r.
    rewrite HAl, HT. reflexivity. }
  destruct (trmm_sweep scalar_t rO rI radd rmul side diag alpha r
              (upto (nt B)) st0)
    as (st1 & Hrun1 & HA1 & Hm1 & Hn1 & Hlk1).
  { apply NoDup_seqZ. }
  { simpl. unfold r. lia. }
  { intros n Hn. rewrite (Hval0 n Hn). eauto. }
  rewrite Hrun1. simpl.
  destruct (gemm_loops scalar_t rO rI radd rmul alpha r (upto (nt B))
              (fun k => tile_of (base A) 0 k) (fun k j => tile_of B k j)
              (NoDup_seqZ _ _) (downfrom (mt B - 2)) st1
              (fun j => tile_trmm scalar_t rO rI radd rmul side (uplo A) diag
                          alpha Al (tile_of B r j)))
    as (st2 & Hrun2 & HA2 & Hm2 & Hn2 & Hlk2).
  { rewrite Hm1. simpl. unfold r. lia. }
  { intros k Hk. unfold downfrom in Hk.
    rewrite list_elem_of_In, <- in_rev, <- list_elem_of_In, elem_of_seqZ
      in Hk.
    assert (Hkr : k <> r) by (unfold r; lia).
    split; [trivial|]. rewrite HA1. simpl. split.
    - destruct (HA k) as (T & HT); [lia|].
      now rewrite (tile_of_lookup _ _ _ _ _ HT).
    - intros j Hj. rewrite Hlk1.
      case_decide as Hd; [destruct Hd; contradiction|]. simpl.
      apply Hcols in Hj. destruct (HB k j) as (T & HT); [lia|trivial|].
      now rewrite (tile_of_lookup _ _ _ _ _ HT). }
  { intros j Hj. rewrite Hlk1. rewrite decide_True by now split.
    now apply Hval0. }
  rewrite Hrun2. simpl.
  exists st2. split; [reflexivity|].
  intros n Hn. rewrite Hlk2.
  rewrite decide_True by (split; [reflexivity|now apply Hcols]).
  now rewrite (tile_of_lookup _ _ _ _ _ HAl).
Qed.

Lemma fold_left_rev_foldr {X Y : Type} (f : Y -> X -> Y) (l : list X)
    (y : Y) :
  fold_left f (rev l) y = foldr (fun x acc => f acc x) y l.
Proof.
  pose proof (fold_left_rev_right (fun x acc => f acc x) (rev l) y) as H.
  rewrite rev_involutive in H. exact (eq_sym H).
Qed.


(** X2: when [A] is a single tile the second loop nest is not entered
    ([A.nt() - 2] is negative), and [trmm] is the tile kernel applied to
    each tile of the one tile row of [B], for either [side]. *)
Theorem trmm_single_tile (side : Side) (diag : Diag) (alpha : scalar_t)
    (A : TriangularMatrix scalar_t) (B : Matrix scalar_t) (priority : Z)
    (a : Tile scalar_t) :
  mt (base A) = 1 -> nt (base A) = 1 -> mt B = 1 ->
  tiles (base A) !! (0, 0) = Some a ->
  (forall n, 0 <= n < nt B -> is_Some (tiles B !! (0, n))) ->
  exists st,
    trmm scalar_t rO rI radd rmul side diag alpha A B priority = Ok st
    /\ forall n, 0 <= n < nt B ->
         tiles (opB st) !! (0, n)
         = Some (tile_trmm scalar_t rO rI radd rmul side (uplo A) diag alpha
                   a (tile_of B 0 n)).
Proof.
  intros HmA HnA HmB Ha HB.
  assert (Hp : tiles_present A B).
  { split; [exact HmA|]. split; [congruence|]. split; [lia|]. split.
    - intros k Hk. assert (k = 0) as -> by lia. eauto.
    - intros k n Hk Hn. assert (k = 0) as -> by lia. now apply HB. }
  destruct (last_row_accumulates side diag alpha A B priority Hp)
    as (st & Hrun & Hrow).
  exists st. split; [exact Hrun|].
  intros n Hn. specialize (Hrow n Hn). rewrite HmB in Hrow.
  change (1 - 1) with 0 in Hrow.
  change (downfrom (1 - 2)) with (@nil Z) in Hrow.
  simpl in Hrow. rewrite Hrow.
  now rewrite (tile_of_lookup _ _ _ _ _ Ha).
Qed.


Lemma for_nothing {S : Type} (ks : list Z) (body : Z -> S -> result S)
    (st : S) :
  (forall k s, body k s = Ok s) -> for_ ks body st = Ok st.
Proof.
  intros Hbody. induction ks as [|k ks IH]; simpl; trivial.
  now rewrite Hbody.
Qed.

(** X4: with no tile column in [B] ([B.nt() <= 0]) no task is created:
    once the assertions hold, [trmm] returns with both operands as they
    were, whatever tiles the grids hold. *)
Theorem trmm_no_columns (side : Side) (diag : Diag) (alpha : scalar_t)
    (A : TriangularMatrix scalar_t) (B : Matrix scalar_t) (priority : Z) :
  mt (base A) = 1 -> nt (base A) = mt B -> nt B <= 0 ->
  trmm scalar_t rO rI radd rmul side diag alpha A B priority
  = Ok (mkOperands scalar_t A B).
Proof.
  intros HmA HnA HN. unfold trmm, trmm_HostTask, upto.
  rewrite HmA, HnA, !Z.eqb_refl, (seqZ_nil 0 (nt B) HN). simpl.
  now rewrite for_nothing.
Qed.

End TrmmMore.

(** ** Tasks, schedules and the grid *)

Section TrmmTasks.

Variable scalar_t : Type.
Variables (rO rI : scalar_t).
Variables (radd rmul : scalar_t -> scalar_t -> scalar_t).

Abbreviation do_task := (run_task scalar_t rO rI radd rmul).
Abbreviation do_tasks := (run_tasks scalar_t rO rI radd rmul).
Abbreviation val_task := (task_val scalar_t rO rI radd rmul).

Lemma run_task_ok side diag alpha (t : task) (st st' : Operands scalar_t) :
  do_task side diag alpha t st = Ok st' ->
  exists v,
    val_task side diag alpha t (mt (opB st) - 1) st = Some v
    /\ st' = store_B st (mt (opB st) - 1) (task_column t) v.
Proof.
  destruct t as [n|k n]; simpl.
  - unfold trmm_task, trmm_val, at_.
    destruct (tiles (base (opA st)) !! (0, _)) as [a|]; simpl;
      [|discriminate].
    destruct (tiles (opB st) !! (_, n)) as [b|]; simpl; [|discriminate].
    intros [= <-]. eauto.
  - unfold gemm_task, gemm_val, at_.
    destruct (tiles (base (opA st)) !! (0, k)) as [a|]; simpl;
      [|discriminate].
    destruct (tiles (opB st) !! (k, n)) as [b|]; simpl; [|discriminate].
    destruct (tiles (opB st) !! (_ - 1, n)) as [c|]; simpl; [|discriminate].
    intros [= <-]. eauto.
Qed.

Lemma task_val_run side diag alpha (t : task) (st : Operands scalar_t)
    (v : Tile scalar_t) :
  val_task side diag alpha t (mt (opB st) - 1) st = Some v ->
  do_task side diag alpha t st
  = Ok (store_B st (mt (opB st) - 1) (task_column t) v).
Proof.
  destruct t as [n|k n]; simpl.
  - apply trmm_task_val. lia.
  - apply gemm_task_val. lia.
Qed.

Lemma task_val_local side diag alpha (t : task) (r n' : Z)
    (st : Operands scalar_t) (v : Tile scalar_t) :
  n' <> task_column t ->
  val_task side diag alpha t r (store_B st r n' v)
  = val_task side diag alpha t r st.
Proof.
  destruct t as [n|k n]; simpl.
  - apply trmm_val_local.
  - apply gemm_val_local.
Qed.

Lemma task_val_present side diag alpha (t : task) (r : Z)
    (st : Operands scalar_t) (v : Tile scalar_t) :
  val_task side diag alpha t r st = Some v ->
  is_Some (tiles (opB st) !! (r, task_column t)).
Proof.
  destruct t as [n|k n]; simpl.
  - unfold trmm_val.
    destruct (tiles (base (opA st)) !! (0, _)); [|discriminate].
    destruct (tiles (opB st) !! (r, n)); [eauto|discriminate].
  - unfold gemm_val.
    destruct (tiles (base (opA st)) !! (0, k)); [|discriminate].
    destruct (tiles (opB st) !! (k, n)); [|discriminate].
    destruct (tiles (opB st) !! (r, n)); [eauto|discriminate].
Qed.

(** The two loop nests are the tasks of [program_order], one after the
    other. *)
Lemma run_tasks_app side diag alpha (l1 l2 : list task)
    (st : Operands scalar_t) :
  do_tasks side diag alpha (l1 ++ l2) st
  = (st' <- do_tasks side diag alpha l1 st ;;
     do_tasks side diag alpha l2 st').
Proof.
  revert st. induction l1 as [|t l1 IH]; intros st; simpl; trivial.
  destruct (do_task side diag alpha t st) as [s1|f]; simpl; trivial.
Qed.

Lemma for_trmm_tasks side diag alpha (l : list Z) (st : Operands scalar_t) :
  for_ l (trmm_task scalar_t rO rI radd rmul side diag alpha) st
  = do_tasks side diag alpha (map TrmmTask l) st.
Proof.
  revert st. induction l as [|n l IH]; intros st; simpl; trivial.
  destruct (trmm_task _ _ _ _ _ _ _ _ n st) as [s1|f]; simpl; trivial.
Qed.

Lemma for_gemm_tasks side diag alpha (k : Z) (l : list Z)
    (st : Operands scalar_t) :
  for_ l (gemm_task scalar_t rO rI radd rmul alpha k) st
  = do_tasks side diag alpha (map (GemmTask k) l) st.
Proof.
  revert st. induction l as [|n l IH]; intros st; simpl; trivial.
  destruct (gemm_task _ _ _ _ _ _ k n st) as [s1|f]; simpl; trivial.
Qed.

Lemma for_gemm_nest side diag alpha (ks cols : list Z)
    (st : Operands scalar_t) :
  for_ ks (fun k => for_ cols (gemm_task scalar_t rO rI radd rmul alpha k)) st
  = do_tasks side diag alpha
      (flat_map (fun k => map (GemmTask k) cols) ks) st.
Proof.
  revert st. induction ks as [|k ks IH]; intros st; simpl; trivial.
  rewrite run_tasks_app, (for_gemm_tasks side diag alpha k cols st).
  destruct (do_tasks side diag alpha (map (GemmTask k) cols) st)
    as [s1|f]; simpl; trivial.
Qed.

Lemma trmm_runs_program_order side diag alpha
    (A : TriangularMatrix scalar_t) (B : Matrix scalar_t) (priority : Z)
    (st : Operands scalar_t) :
  trmm scalar_t rO rI radd rmul side diag alpha A B priority = Ok st ->
  do_tasks side diag alpha (program_order A B) (mkOperands scalar_t A B)
  = Ok st.
Proof.
  unfold trmm, trmm_HostTask, program_order.
  destruct (assert (mt (base A) =? 1) _); simpl; [|discriminate].
  destruct (assert (nt (base A) =? mt B) _); simpl; [|discriminate].
  rewrite run_tasks_app, for_trmm_tasks.
  destruct (do_tasks side diag alpha (map TrmmTask (upto (nt B))) _)
    as [st1|f1]; simpl; [|discriminate].
  rewrite (for_gemm_nest side diag alpha).
  destruct (do_tasks side diag alpha _ st1) as [st2|f2]; simpl;
    [trivial|discriminate].
Qed.

(** Two neighbouring tasks on different columns may change places. *)
Lemma store_B_swap (st : Operands scalar_t) (r n1 n2 : Z)
    (v1 v2 : Tile scalar_t) :
  n1 <> n2 ->
  store_B (store_B st r n1 v1) r n2 v2 = store_B (store_B st r n2 v2) r n1 v1.
Proof.
  intros Hn. unfold store_B, set_tile. simpl. do 2 f_equal.
  apply insert_insert_ne. intros [= ->]. contradiction.
Qed.

Lemma tasks_commute side diag alpha (t1 t2 : task)
    (st s1 s2 : Operands scalar_t) :
  task_column t1 <> task_column t2 ->
  do_task side diag alpha t1 st = Ok s1 ->
  do_task side diag alpha t2 s1 = Ok s2 ->
  exists s1',
    do_task side diag alpha t2 st = Ok s1'
    /\ do_task side diag alpha t1 s1' = Ok s2.
Proof.
  intros Hc H1 H2.
  apply run_task_ok in H1 as (v1 & Hv1 & ->).
  apply run_task_ok in H2 as (v2 & Hv2 & ->).
  simpl in Hv2 |- *.
  set (r := mt (opB st) - 1) in *.
  rewrite task_val_local in Hv2 by exact Hc.
  exists (store_B st r (task_column t2) v2). split.
  - now apply task_val_run.
  - rewrite store_B_swap by exact Hc.
    apply (task_val_run side diag alpha t1
             (store_B st r (task_column t2) v2) v1).
    simpl. fold r. rewrite task_val_local by now apply not_eq_sym.
    exact Hv1.
Qed.

Lemma reorder_same_outcome side diag alpha (l l' : list task) :
  reorder l l' ->
  forall st st' : Operands scalar_t,
    do_tasks side diag alpha l st = Ok st' ->
    do_tasks side diag alpha l' st = Ok st'.
Proof.
  induction 1 as [l|l1 l2 t1 t2 Hc|l1 l2 l3 _ IH1 _ IH2]; intros st st' Hrun.
  - exact Hrun.
  - rewrite run_tasks_app in Hrun |- *.
    destruct (do_tasks side diag alpha l1 st) as [s0|f]; simpl in *;
      [|discriminate].
    destruct (do_task side diag alpha t1 s0) as [s1|f] eqn:H1; simpl in *;
      [|discriminate].
    destruct (do_task side diag alpha t2 s1) as [s2|f] eqn:H2; simpl in *;
      [|discriminate].
    destruct (tasks_commute side diag alpha t1 t2 s0 s1 s2 Hc H1 H2)
      as (s1' & H2' & H1').
    rewrite H2'. simpl. rewrite H1'. simpl. exact Hrun.
  - eauto.
Qed.

(** X6: a successful run of [trmm] does not depend on the order of tasks
    that write to different columns: a schedule got from the order of
    creation by exchanging neighbouring tasks of different columns ends in
    the same operands. *)
Theorem trmm_reordered (side : Side) (diag : Diag) (alpha : scalar_t)
    (A : TriangularMatrix scalar_t) (B : Matrix scalar_t) (priority : Z)
    (st : Operands scalar_t) (l : list task) :
  trmm scalar_t rO rI radd rmul side diag alpha A B priority = Ok st ->
  reorder (program_order A B) l ->
  do_tasks side diag alpha l (mkOperands scalar_t A B) = Ok st.
Proof.
  intros Hrun Hl.
  apply (reorder_same_outcome side diag alpha (program_order A B) l Hl).
  now apply trmm_runs_program_order with (priority := priority).
Qed.

(** A task writes where a tile already is: the grid keeps its shape and
    its set of tiles. *)
Lemma same_grid_task side diag alpha (t : task)
    (st st' : Operands scalar_t) :
  do_task side diag alpha t st = Ok st' -> same_grid st st'.
Proof.
  intros Hrun. apply run_task_ok in Hrun as (v & Hv & ->).
  apply task_val_present in Hv.
  repeat split. simpl. now apply dom_insert_lookup_L.
Qed.

Lemma same_grid_tasks side diag alpha (l : list task) :
  forall st st' : Operands scalar_t,
    do_tasks side diag alpha l st = Ok st' -> same_grid st st'.
Proof.
  induction l as [|t l IH]; simpl; intros st st' Hrun.
  - injection Hrun as <-. now repeat split.
  - destruct (do_task side diag alpha t st) as [s1|f] eqn:H1; simpl in Hrun;
      [|discriminate].
    apply same_grid_task in H1 as (Hm1 & Hn1 & Hd1).
    apply IH in Hrun as (Hm & Hn & Hd).
    repeat split; congruence.
Qed.

(** X7: [trmm] neither adds nor removes a tile: on return the grid of [B]
    has the same [mt] and [nt] and holds tiles at exactly the same
    indices. *)
Theorem trmm_preserves_grid (side : Side) (diag : Diag) (alpha : scalar_t)
    (A : TriangularMatrix scalar_t) (B : Matrix scalar_t) (priority : Z)
    (st : Operands scalar_t) :
  trmm scalar_t rO rI radd rmul side diag alpha A B priority = Ok st ->
  mt (opB st) = mt B
  /\ nt (opB st) = nt B
  /\ (dom (tiles (opB st)) : gset (Z * Z)) = dom (tiles B).
Proof.
  intros Hrun. apply trmm_runs_program_order in Hrun.
  exact (same_grid_tasks side diag alpha _ _ _ Hrun).
Qed.

(** X9: whatever tasks are run and in whatever order, a run that goes
    through leaves [A], the shape of the grid of [B], the set of its tiles
    and every tile outside its last tile row as they were. *)
Theorem tasks_keep_frame_and_grid (side : Side) (diag : Diag)
    (alpha : scalar_t) (l : list task) (st st' : Operands scalar_t) :
  do_tasks side diag alpha l st = Ok st' ->
  frame st st' /\ same_grid st st'.
Proof.
  intros Hrun. split; [|exact (same_grid_tasks side diag alpha l st st' Hrun)].
  revert st Hrun. induction l as [|t l IH]; simpl; intros st Hrun.
  - injection Hrun as <-. apply frame_refl.
  - destruct (do_task side diag alpha t st) as [s1|f] eqn:H1; simpl in Hrun;
      [|discriminate].
    apply (frame_trans scalar_t st s1 st'); [|now apply IH].
    destruct t as [n|k n]; simpl in H1.
    + exact (trmm_task_frame scalar_t rO rI radd rmul side diag alpha n
               st s1 H1).
    + exact (gemm_task_frame scalar_t rO rI radd rmul alpha k n st s1 H1).
Qed.

(** ** The run in a parallel region *)

(** Outside a parallel region the routine is the run of the tasks in the
    order of their creation, failures included. *)
Lemma trmm_HostTask_creation_order side diag alpha
    (A : TriangularMatrix scalar_t) (B : Matrix scalar_t) (priority : Z) :
  trmm_HostTask scalar_t rO rI radd rmul side diag alpha A B priority
  = trmm_HostTask_scheduled scalar_t rO rI radd rmul (program_order A B)
      side diag alpha A B priority.
Proof.
  unfold trmm_HostTask, trmm_HostTask_scheduled, program_order.
  destruct (assert (mt (base A) =? 1) _); simpl; trivial.
  destruct (assert (nt (base A) =? mt B) _); simpl; trivial.
  rewrite run_tasks_app, for_trmm_tasks.
  destruct (do_tasks side diag alpha (map TrmmTask (upto (nt B))) _)
    as [st1|f1]; simpl; trivial.
  rewrite (for_gemm_nest side diag alpha).
  now destruct (do_tasks side diag alpha _ st1).
Qed.

(** A schedule reached by exchanging neighbours runs the same tasks. *)
Lemma reorder_Permutation (l l' : list task) :
  reorder l l' -> Permutation l' l.
Proof.
  induction 1 as [l|l1 l2 t1 t2 _|l1 l2 l3 _ IH1 _ IH2].
  - reflexivity.
  - apply Permutation_app_head, perm_swap.
  - now transitivity l2.
Qed.

(** The loops create tasks for the tiles of the grid only. *)
Lemma program_order_in_range (A : TriangularMatrix scalar_t)
    (B : Matrix scalar_t) :
  nt (base A) = mt B ->
  Forall (task_in_range (mt B) (nt B)) (program_order A B).
Proof.
  intros HnA. apply List.Forall_forall. intros t Ht.
  unfold program_order, upto, downfrom in Ht.
  apply in_app_or in Ht as [Ht|Ht].
  - apply in_map_iff in Ht as (n & <- & Hn).
    apply list_elem_of_In, elem_of_seqZ in Hn. simpl. lia.
  - apply in_flat_map in Ht as (k & Hk & Ht).
    apply in_map_iff in Ht as (n & <- & Hn).
    apply list_elem_of_In, elem_of_seqZ in Hn.
    apply in_rev, list_elem_of_In, elem_of_seqZ in Hk. simpl. lia.
Qed.

Lemma column_tasks_cons (n : Z) (t : task) (l : list task) :
  column_tasks n (t :: l)
  = if task_column t =? n then t :: column_tasks n l else column_tasks n l.
Proof. reflexivity. Qed.

(** Tasks run one by one on the shared operands: each column of the last
    tile row goes through its own tasks, in the order in which they run,
    and the tiles the tasks read from elsewhere are those of entry. *)
Lemma run_tasks_by_column side diag alpha
    (A : TriangularMatrix scalar_t) (B : Matrix scalar_t) (l : list task) :
  tiles_present A B ->
  Forall (task_in_range (mt B) (nt B)) l ->
  forall st : Operands scalar_t,
    opA st = A -> mt (opB st) = mt B ->
    (forall k n, k <> mt B - 1 ->
                 tiles (opB st) !! (k, n) = tiles B !! (k, n)) ->
    (forall n, 0 <= n < nt B -> is_Some (tiles (opB st) !! (mt B - 1, n))) ->
    exists st',
      do_tasks side diag alpha l st = Ok st'
      /\ forall n, 0 <= n < nt B ->
           tiles (opB st') !! (mt B - 1, n)
           = Some (fold_left
                     (task_kernel scalar_t rO rI radd rmul side diag alpha A B)
                     (column_tasks n l) (tile_of (opB st) (mt B - 1) n)).
Proof.
  intros (HmA & HnA & HK & HA & HB) Hl.
  induction Hl as [|t l Ht Hl IH]; intros st HstA Hstm Hrest Hlast.
  - exists st. split; [reflexivity|].
    intros n Hn. destruct (Hlast n Hn) as [T HT].
    simpl. now rewrite (tile_of_lookup _ _ _ _ _ HT).
  - set (r := mt B - 1) in *.
    assert (Hstep : exists v,
              do_task side diag alpha t st
              = Ok (store_B st r (task_column t) v)
              /\ v = task_kernel scalar_t rO rI radd rmul side diag alpha A B
                       (tile_of (opB st) r (task_column t)) t
              /\ 0 <= task_column t < nt B).
    { destruct t as [n0|k n0]; simpl in Ht |- *.
      - destruct (HA r) as [a Ha]; [unfold r; lia|].
        destruct (Hlast n0 Ht) as [b Hb].
        eexists. split; [|split; [reflexivity|exact Ht]].
        unfold trmm_task, at_. rewrite HstA, Hstm, HnA. fold r.
        rewrite Ha, Hb. simpl.
        now rewrite (tile_of_lookup _ _ _ _ _ Ha),
          (tile_of_lookup _ _ _ _ _ Hb).
      - destruct Ht as [Hk Hn0].
        destruct (HA k) as [a Ha]; [lia|].
        destruct (HB k n0) as [b Hb]; [lia|trivial|].
        destruct (Hlast n0 Hn0) as [c Hc].
        assert (Hb' : tiles (opB st) !! (k, n0) = Some b).
        { rewrite Hrest; [exact Hb|unfold r; lia]. }
        eexists. split; [|split; [reflexivity|exact Hn0]].
        unfold gemm_task, at_. rewrite HstA, Hstm. fold r.
        rewrite Ha, Hb', Hc. simpl.
        now rewrite (tile_of_lookup _ _ _ _ _ Ha),
          (tile_of_lookup _ _ _ _ _ Hb), (tile_of_lookup _ _ _ _ _ Hc). }
    destruct Hstep as (v & Hrun & Hv & Hcol).
    destruct (IH (store_B st r (task_column t) v)) as (st' & Hrun' & Hrow').
    + exact HstA.
    + exact Hstm.
    + intros k n Hk. simpl. rewrite lookup_insert_ne; [now apply Hrest|].
      intros [= Hkr _]. now apply Hk.
    + intros n Hn. simpl.
      destruct (decide (n = task_column t)) as [-> | Hne].
      * rewrite lookup_insert_eq. eauto.
      * rewrite lookup_insert_ne; [now apply Hlast|].
        intros [= Heq]. now apply Hne.
    + exists st'. split; [simpl; rewrite Hrun; exact Hrun'|].
      intros n Hn. rewrite (Hrow' n Hn). f_equal.
      rewrite column_tasks_cons.
      destruct (Z.eqb_spec (task_column t) n) as [<- | Hne]; simpl.
      * unfold tile_of at 1. simpl. rewrite lookup_insert_eq. simpl.
        now rewrite Hv.
      * f_equal. unfold tile_of. simpl.
        rewrite lookup_insert_ne; [reflexivity|].
        intros [= Heq]. now apply Hne.
Qed.

(** X1: in a parallel region, whatever order the runtime picks for the
    tasks, [trmm] returns when every tile of the 1 x K and K x N grids is
    there, and each tile [B(K-1,n)] holds the tile it had on entry passed
    through the kernels of the tasks of column [n], in the order in which
    these tasks ran. *)
Theorem trmm_last_row_any_schedule (side : Side) (diag : Diag)
    (alpha : scalar_t) (A : TriangularMatrix scalar_t)
    (B : Matrix scalar_t) (priority : Z) (l : list task) :
  tiles_present A B ->
  schedule A B l ->
  exists st,
    trmm_HostTask_scheduled scalar_t rO rI radd rmul l side diag alpha
      A B priority = Ok st
    /\ forall n, 0 <= n < nt B ->
         tiles (opB st) !! (mt B - 1, n)
         = Some (scheduled_last_row scalar_t rO rI radd rmul
                   side diag alpha A B l n).
Proof.
  intros Hp Hl.
  assert (Hrange : Forall (task_in_range (mt B) (nt B)) l).
  { destruct Hp as (_ & HnA & _).
    eapply Permutation_Forall;
      [apply Permutation_sym; exact Hl|now apply program_order_in_range]. }
  destruct (run_tasks_by_column side diag alpha A B l Hp Hrange
              (mkOperands scalar_t A B)) as (st & Hrun & Hrow);
    try reflexivity.
  { destruct Hp as (_ & _ & HK & _ & HB). intros n Hn. apply HB; lia. }
  exists st. split; [|exact Hrow].
  destruct Hp as (HmA & HnA & _).
  unfold trmm_HostTask_scheduled.
  rewrite HmA, HnA, !Z.eqb_refl. exact Hrun.
Qed.

(** X14: a schedule that keeps the tasks of each column in the order of
    their creation is one the runtime may pick, and it leaves in each tile
    [B(K-1,n)] what the loops are written to compute: the diagonal [trmm]
    kernel on the old tile, then the [gemm] accumulations for [k = K-2]
    down to [0], for either [side]. *)
Theorem trmm_last_row_column_order (side : Side) (diag : Diag)
    (alpha : scalar_t) (A : TriangularMatrix scalar_t)
    (B : Matrix scalar_t) (priority : Z) (l : list task) :
  tiles_present A B ->
  reorder (program_order A B) l ->
  schedule A B l
  /\ exists st,
       trmm_HostTask_scheduled scalar_t rO rI radd rmul l side diag alpha
         A B priority = Ok st
       /\ forall n, 0 <= n < nt B ->
            tiles (opB st) !! (mt B - 1, n)
            = Some (accumulated_last_row scalar_t rO rI radd rmul
                      side diag alpha A B n).
Proof.
  intros Hp Hl. split; [now apply reorder_Permutation|].
  destruct (last_row_accumulates scalar_t rO rI radd rmul side diag alpha
              A B priority Hp) as (st & Hrun & Hrow).
  exists st. split.
  - destruct Hp as (HmA & HnA & _).
    unfold trmm_HostTask_scheduled.
    rewrite HmA, HnA, !Z.eqb_refl.
    apply (reorder_same_outcome side diag alpha (program_order A B) l Hl).
    now apply trmm_runs_program_order with (priority := priority).
  - intros n Hn. rewrite (Hrow n Hn). f_equal.
    unfold accumulated_last_row, downfrom.
    replace (mt B - 2 + 1) with (mt B - 1) by lia.
    apply fold_left_rev_foldr.
Qed.

End TrmmTasks.

(** ** The whole run of [gecondest] *)

Lemma flat_map_seq_shift {X : Type} (f : nat -> list X) (a len : nat) :
  flat_map f (seq (S a) len) = flat_map (fun j => f (S j)) (seq a len).
Proof.
  revert a. induction len as [|len IH]; intros a; simpl; trivial.
  now rewrite IH.
Qed.

Lemma count_events_app (P : event -> bool) (l1 l2 : list event) :
  count_events P (l1 ++ l2) = (count_events P l1 + count_events P l2)%nat.
Proof. unfold count_events. now rewrite List.filter_app, length_app. Qed.

Lemma count_events_rounds (P : event -> bool) (c : nat)
    (f : nat -> list event) (l : list nat) :
  (forall j, count_events P (f j) = c) ->
  count_events P (flat_map f l) = (length l * c)%nat.
Proof.
  intros Hf. induction l as [|j l IH]; simpl; trivial.
  now rewrite count_events_app, Hf, IH.
Qed.

Section GecondestMore.

Variables scalar_t MatData Vec IVec Options : Type.
Variable scalar_one : scalar_t.
Variable norm1est : World Vec IVec -> World Vec IVec.
Variable trsm : Side -> scalar_t -> TriView MatData -> Options ->
                (rank -> Vec) -> (rank -> Vec).
Variables (X0 V0 : rank -> Vec) (isgn0 : rank -> IVec).

Abbreviation world := (World Vec IVec).
Abbreviation run_loop_body :=
  (loop_body scalar_t MatData Vec IVec Options norm1est trsm).
Abbreviation run_while :=
  (while_kase scalar_t MatData Vec IVec Options norm1est trsm).
Abbreviation run_rounds :=
  (rounds scalar_t MatData Vec IVec Options norm1est trsm).
Abbreviation run_world_at :=
  (world_at scalar_t MatData Vec IVec Options scalar_one norm1est trsm
     X0 V0 isgn0).
Abbreviation run_gecondest :=
  (gecondest scalar_t MatData Vec IVec Options scalar_one norm1est trsm
     X0 V0 isgn0).
Abbreviation run_expected_trace :=
  (expected_trace scalar_t MatData Vec IVec Options scalar_one norm1est trsm
     X0 V0 isgn0).

Lemma loop_body_events (first : bool) (root : rank) alpha
    (L U : TriView MatData) opts (w : world) :
  tv_op MatData L = NoTrans -> tv_op MatData U = NoTrans ->
  fst (run_loop_body first root alpha L U opts w)
  = solve_events first (tv_uplo MatData L, tv_diag MatData L)
      (tv_uplo MatData U, tv_diag MatData U)
    ++ sync_events root.
Proof. intros HL HU. destruct first; simpl; now rewrite HL, HU. Qed.

(** A loop that is left at its [r]-th test: its trace and what it
    returns. *)
Lemma while_kase_run (n : nat) (root : rank) (kase1 : Z) alpha
    (L U : TriView MatData) opts (Anorm : real_t) (r : nat) :
  tv_op MatData L = NoTrans -> tv_op MatData U = NoTrans ->
  forall (fuel : nat) (w : world),
    agree w -> (r < fuel)%nat ->
    (forall j, (j < r)%nat ->
       kase (run_rounds j root kase1 alpha L U opts w root) <> 0) ->
    kase (run_rounds r root kase1 alpha L U opts w root) = 0 ->
    run_while fuel n root kase1 alpha L U opts Anorm w
    = (flat_map
         (fun j =>
            EvTest (held Vec IVec n
                      (run_rounds j root kase1 alpha L U opts w))
            :: solve_events
                 (kase (run_rounds j root kase1 alpha L U opts w root)
                  =? kase1)
                 (tv_uplo MatData L, tv_diag MatData L)
                 (tv_uplo MatData U, tv_diag MatData U)
            ++ sync_events root)
         (seq 0 r)
       ++ [EvTest (held Vec IVec n
                     (run_rounds r root kase1 alpha L U opts w))],
       Returns (fun p =>
                  rcond_of Anorm
                    (Ainvnorm
                       (run_rounds r root kase1 alpha L U opts w p)))).
Proof.
  intros HL HU.
  induction r as [|r IH]; intros fuel w Hw Hfuel Hrun Hstop;
    (destruct fuel as [|fuel]; [lia|]); simpl in *.
  - rewrite (unanimous_kase Vec IVec n w (fun k => negb (k =? 0)) root Hw).
    rewrite Hstop. reflexivity.
  - rewrite (unanimous_kase Vec IVec n w (fun k => negb (k =? 0)) root Hw).
    pose proof (Hrun O ltac:(lia)) as H0. simpl in H0.
    apply Z.eqb_neq in H0. rewrite H0. simpl.
    rewrite (unanimous_kase Vec IVec n w (fun k => k =? kase1) root Hw).
    rewrite flat_map_seq_shift.
    assert (Hloop := IH fuel
              (round scalar_t MatData Vec IVec Options norm1est trsm
                 root kase1 alpha L U opts w)
              (loop_body_agree scalar_t MatData Vec IVec Options norm1est
                 trsm _ root alpha L U opts w)
              ltac:(lia)
              (fun j Hj => Hrun (S j) ltac:(lia))
              Hstop).
    simpl. unfold round in Hloop |- *.
    pose proof (loop_body_events (kase (w root) =? kase1) root alpha L U
                  opts w HL HU) as Hev.
    destruct (run_loop_body _ root alpha L U opts w) as [ev w'].
    simpl in Hev, Hloop |- *. subst ev. rewrite Hloop.
    now rewrite <- !app_assoc.
Qed.

Lemma gecondest_run (in_norm : Norm) (A : DistMatrix MatData)
    (Anorm : real_t) (opts : Options) (r fuel : nat) :
  in_norm = One \/ in_norm = Inf ->
  1 < m A ->
  SFltb r0 Anorm = true ->
  (forall j, (j < r)%nat ->
     kase (run_world_at j in_norm A opts (tileRankFunc A 0 0)) <> 0) ->
  kase (run_world_at r in_norm A opts (tileRankFunc A 0 0)) = 0 ->
  (r < fuel)%nat ->
  run_gecondest fuel in_norm A Anorm opts
  = (run_expected_trace r in_norm A opts,
     Returns (fun p =>
                rcond_of Anorm (Ainvnorm (run_world_at r in_norm A opts p)))).
Proof.
  intros Hnorm Hm HA Hrun Hstop Hfuel.
  destruct (positive_passes_checks Anorm HA) as [Hc1 Hc2].
  assert (Hm' : (m A <=? 1) = false) by (apply Z.leb_gt; lia).
  unfold expected_trace, world_at in *.
  set (root := tileRankFunc A 0 0) in *.
  set (w1 := snd (_ _)) in *.
  pose proof (while_kase_run (mpiSize A) root (kase1_of in_norm) scalar_one
                (mkTri MatData Lower Unit NoTrans A)
                (mkTri MatData Upper NonUnit NoTrans A) opts Anorm r
                eq_refl eq_refl fuel w1
                (cold_start_agree Vec IVec norm1est root _)
                Hfuel Hrun Hstop) as Hloop.
  unfold gecondest.
  destruct Hnorm as [-> | ->]; simpl; rewrite Hc1, Hm', Hc2;
    simpl in Hloop; fold root; unfold w1 in Hloop; simpl in Hloop;
    rewrite Hloop; reflexivity.
Qed.

(** X10: a run of [gecondest] that leaves the loop at its [r]-th test has
    the trace [expected_trace]: the cold start of the estimator with its two
    broadcasts, then per trip the test, the solves with [L] and [U] when
    [kase == kase1] and with [U^H] and [L^H] otherwise, and the estimator
    with its two broadcasts, then the last test. *)
Theorem gecondest_trace (in_norm : Norm) (A : DistMatrix MatData)
    (Anorm : real_t) (opts : Options) (r fuel : nat) :
  in_norm = One \/ in_norm = Inf ->
  1 < m A ->
  SFltb r0 Anorm = true ->
  (forall j, (j < r)%nat ->
     kase (run_world_at j in_norm A opts (tileRankFunc A 0 0)) <> 0) ->
  kase (run_world_at r in_norm A opts (tileRankFunc A 0 0)) = 0 ->
  (r < fuel)%nat ->
  fst (run_gecondest fuel in_norm A Anorm opts)
  = run_expected_trace r in_norm A opts.
Proof.
  intros Hnorm Hm HA Hrun Hstop Hfuel.
  now rewrite (gecondest_run in_norm A Anorm opts r fuel).
Qed.

(** X11: such a run calls the estimator [r + 1] times, [trsm] [2 r]
    times and [MPI_Bcast] [2 (r + 1)] times. *)
Theorem gecondest_cost (in_norm : Norm) (A : DistMatrix MatData)
    (Anorm : real_t) (opts : Options) (r fuel : nat) :
  in_norm = One \/ in_norm = Inf ->
  1 < m A ->
  SFltb r0 Anorm = true ->
  (forall j, (j < r)%nat ->
     kase (run_world_at j in_norm A opts (tileRankFunc A 0 0)) <> 0) ->
  kase (run_world_at r in_norm A opts (tileRankFunc A 0 0)) = 0 ->
  (r < fuel)%nat ->
  let tr := fst (run_gecondest fuel in_norm A Anorm opts) in
  count_events is_norm1est tr = (r + 1)%nat
  /\ count_events is_trsm tr = (2 * r)%nat
  /\ count_events is_bcast tr = (2 * (r + 1))%nat.
Proof.
  intros Hnorm Hm HA Hrun Hstop Hfuel tr. unfold tr.
  rewrite (gecondest_run in_norm A Anorm opts r fuel) by trivial.
  unfold expected_trace. cbn [fst].
  rewrite !count_events_app.
  rewrite (count_events_rounds is_norm1est 1),
    (count_events_rounds is_trsm 2), (count_events_rounds is_bcast 2).
  - rewrite length_seq. unfold count_events. simpl. lia.
  - intros j. now destruct (_ =? _).
  - intros j. now destruct (_ =? _).
  - intros j. now destruct (_ =? _).
Qed.

(** X12: a NaN estimate is not taken for zero: the process on which the
    final [Ainvnorm] is NaN returns NaN. *)
Theorem gecondest_nan_estimate (in_norm : Norm) (A : DistMatrix MatData)
    (Anorm : real_t) (opts : Options) (r fuel : nat) (p : rank) :
  in_norm = One \/ in_norm = Inf ->
  1 < m A ->
  SFltb r0 Anorm = true ->
  (forall j, (j < r)%nat ->
     kase (run_world_at j in_norm A opts (tileRankFunc A 0 0)) <> 0) ->
  kase (run_world_at r in_norm A opts (tileRankFunc A 0 0)) = 0 ->
  (r < fuel)%nat ->
  Ainvnorm (run_world_at r in_norm A opts p) = S754_nan ->
  exists rc,
    snd (run_gecondest fuel in_norm A Anorm opts) = Returns rc
    /\ rc p = S754_nan.
Proof.
  intros Hnorm Hm HA Hrun Hstop Hfuel Hnan.
  rewrite (gecondest_run in_norm A Anorm opts r fuel) by trivial.
  eexists. split; [reflexivity|]. simpl. rewrite Hnan.
  now destruct Anorm.
Qed.

(** X13: an infinite estimate gives a zero: the process on which the
    final [Ainvnorm] is an infinity returns the zero of the same sign. *)
Theorem gecondest_infinite_estimate (in_norm : Norm)
    (A : DistMatrix MatData) (Anorm : real_t) (opts : Options)
    (r fuel : nat) (p : rank) (s : bool) :
  in_norm = One \/ in_norm = Inf ->
  1 < m A ->
  SFltb r0 Anorm = true ->
  (forall j, (j < r)%nat ->
     kase (run_world_at j in_norm A opts (tileRankFunc A 0 0)) <> 0) ->
  kase (run_world_at r in_norm A opts (tileRankFunc A 0 0)) = 0 ->
  (r < fuel)%nat ->
  Ainvnorm (run_world_at r in_norm A opts p) = S754_infinity s ->
  exists rc,
    snd (run_gecondest fuel in_norm A Anorm opts) = Returns rc
    /\ rc p = S754_zero s.
Proof.
  intros Hnorm Hm HA Hrun Hstop Hfuel Hinf.
  rewrite (gecondest_run in_norm A Anorm opts r fuel) by trivial.
  eexists. split; [reflexivity|]. simpl. rewrite Hinf.
  destruct Anorm as [sa|sa| |sa ma ea]; try destruct sa; try discriminate HA;
    now destruct s.
Qed.

End GecondestMore.

(** ** More runs over the integers and with the three-step estimator *)

Lemma exA_present (B : Matrix Z) :
  mt B = 2 -> nt B = 2 ->
  (forall k n, (k = 0 \/ k = 1) -> (n = 0 \/ n = 1) ->
               is_Some (tiles B !! (k, n))) ->
  tiles_present exA B.
Proof.
  intros Hm Hn HB.
  split; [reflexivity|]. split; [now rewrite Hm|]. split; [lia|]. split.
  - intros k Hk. assert (Hc : k = 0 \/ k = 1) by lia.
    destruct Hc as [-> | ->]; eexists; reflexivity.
  - intros k n Hk Hn'. apply HB; lia.
Qed.

Lemma exB_present : tiles_present exA exB.
Proof.
  apply exA_present; try reflexivity.
  intros k n [-> | ->] [-> | ->]; eexists; reflexivity.
Qed.


Lemma exRaced_schedule : schedule exA exB exRaced.
Proof.
  unfold schedule.
  change (Permutation (rev (program_order exA exB)) (program_order exA exB)).
  apply Permutation_sym, Permutation_rev.
Qed.

Lemma trmm_last_row_any_schedule_witness :
  exists st,
    Ztrmm_scheduled exRaced Left NonUnit 2 exA exB 0 = Ok st
    /\ forall n, 0 <= n < nt exB ->
         tiles (opB st) !! (mt exB - 1, n)
         = Some (scheduled_last_row Z 0 1 Z.add Z.mul
                   Left NonUnit 2 exA exB exRaced n).
Proof.
  exact (trmm_last_row_any_schedule Z 0 1 Z.add Z.mul Left NonUnit 2
           exA exB 0 exRaced exB_present exRaced_schedule).
Defined.

Lemma trmm_last_row_column_order_witness :
  schedule exA exB exSchedule
  /\ exists st,
       Ztrmm_scheduled exSchedule Left NonUnit 2 exA exB 0 = Ok st
       /\ forall n, 0 <= n < nt exB ->
            tiles (opB st) !! (mt exB - 1, n)
            = Some (accumulated_last_row Z 0 1 Z.add Z.mul
                      Left NonUnit 2 exA exB n).
Proof.
  apply (trmm_last_row_column_order Z 0 1 Z.add Z.mul Left NonUnit 2
           exA exB 0 exSchedule exB_present).
  apply (reorder_swap [TrmmTask 0] [GemmTask 0 1]
           (TrmmTask 1) (GemmTask 0 0)).
  simpl. lia.
Defined.

Lemma trmm_single_tile_witness :
  exists st,
    Ztrmm Right NonUnit 1 oneA oneB 0 = Ok st
    /\ forall n, 0 <= n < nt oneB ->
         tiles (opB st) !! (0, n)
         = Some (tile_trmm Z 0 1 Z.add Z.mul Right (uplo oneA) NonUnit 1
                   [[1; 0]; [1; 1]] (tile_of oneB 0 n)).
Proof.
  apply (trmm_single_tile Z 0 1 Z.add Z.mul Right NonUnit 1 oneA oneB 0
           [[1; 0]; [1; 1]]); try reflexivity.
  intros n Hn. simpl in Hn. assert (n = 0) as -> by lia.
  eexists. reflexivity.
Defined.


Lemma trmm_no_columns_witness :
  Ztrmm Left NonUnit 2 exA noColsB 0 = Ok (mkOperands Z exA noColsB).
Proof.
  apply (trmm_no_columns Z 0 1 Z.add Z.mul Left NonUnit 2 exA noColsB 0).
  - reflexivity.
  - reflexivity.
  - simpl. lia.
Defined.

Lemma trmm_reordered_witness :
  exists st,
    Ztrmm Left NonUnit 2 exA exB 0 = Ok st
    /\ Zrun_tasks Left NonUnit 2 exSchedule (mkOperands Z exA exB) = Ok st.
Proof.
  eexists. split; [vm_compute; reflexivity|].
  apply (trmm_reordered Z 0 1 Z.add Z.mul Left NonUnit 2 exA exB 0).
  - vm_compute. reflexivity.
  - apply (reorder_swap [TrmmTask 0] [GemmTask 0 1]
             (TrmmTask 1) (GemmTask 0 0)).
    simpl. lia.
Defined.

Lemma trmm_preserves_grid_witness :
  exists st,
    Ztrmm Left NonUnit 2 exA exB 0 = Ok st
    /\ mt (opB st) = mt exB
    /\ nt (opB st) = nt exB
    /\ (dom (tiles (opB st)) : gset (Z * Z)) = dom (tiles exB).
Proof.
  eexists. split; [vm_compute; reflexivity|].
  apply (trmm_preserves_grid Z 0 1 Z.add Z.mul Left NonUnit 2 exA exB 0).
  vm_compute. reflexivity.
Defined.

Lemma gecondest_trace_witness :
  fst (toy_gecondest r_half 5 One (toyA 4) r_eight tt)
  = expected_trace Z unit unit unit unit 1 (toy_norm1est r_half) toy_trsm
      (fun _ => tt) (fun _ => tt) (fun _ => tt) 2 One (toyA 4) tt.
Proof.
  apply (gecondest_trace Z unit unit unit unit 1 (toy_norm1est r_half)
           toy_trsm (fun _ => tt) (fun _ => tt) (fun _ => tt)
           One (toyA 4) r_eight tt 2 5).
  - left. reflexivity.
  - simpl. lia.
  - reflexivity.
  - intros j Hj. destruct j as [|[|j]]; [discriminate|discriminate|lia].
  - reflexivity.
  - lia.
Defined.

Lemma gecondest_cost_witness :
  let tr := fst (toy_gecondest r_half 5 One (toyA 4) r_eight tt) in
  count_events is_norm1est tr = 3%nat
  /\ count_events is_trsm tr = 4%nat
  /\ count_events is_bcast tr = 6%nat.
Proof.
  apply (gecondest_cost Z unit unit unit unit 1 (toy_norm1est r_half)
           toy_trsm (fun _ => tt) (fun _ => tt) (fun _ => tt)
           One (toyA 4) r_eight tt 2 5).
  - left. reflexivity.
  - simpl. lia.
  - reflexivity.
  - intros j Hj. destruct j as [|[|j]]; [discriminate|discriminate|lia].
  - reflexivity.
  - lia.
Defined.

Lemma gecondest_nan_estimate_witness :
  exists rc,
    snd (toy_gecondest S754_nan 5 One (toyA 4) r_eight tt) = Returns rc
    /\ rc 0%nat = S754_nan.
Proof.
  apply (gecondest_nan_estimate Z unit unit unit unit 1
           (toy_norm1est S754_nan) toy_trsm
           (fun _ => tt) (fun _ => tt) (fun _ => tt)
           One (toyA 4) r_eight tt 2 5 0%nat).
  - left. reflexivity.
  - simpl. lia.
  - reflexivity.
  - intros j Hj. destruct j as [|[|j]]; [discriminate|discriminate|lia].
  - reflexivity.
  - lia.
  - reflexivity.
Defined.

Lemma gecondest_infinite_estimate_witness :
  exists rc,
    snd (toy_gecondest r_inf 5 Inf (toyA 4) r_eight tt) = Returns rc
    /\ rc 2%nat = S754_zero false.
Proof.
  apply (gecondest_infinite_estimate Z unit unit unit unit 1
           (toy_norm1est r_inf) toy_trsm
           (fun _ => tt) (fun _ => tt) (fun _ => tt)
           Inf (toyA 4) r_eight tt 2 5 2%nat false).
  - right. reflexivity.
  - simpl. lia.
  - reflexivity.
  - intros j Hj. destruct j as [|[|j]]; [discriminate|discriminate|lia].
  - reflexivity.
  - lia.
  - reflexivity.
Defined.

Lemma tasks_keep_frame_and_grid_witness :
  exists st,
    Zrun_tasks Left NonUnit 2 [GemmTask 0 1; TrmmTask 1; TrmmTask 0]
      (mkOperands Z exA exB) = Ok st
    /\ frame (mkOperands Z exA exB) st
    /\ same_grid (mkOperands Z exA exB) st.
Proof.
  eexists. split; [vm_compute; reflexivity|].
  apply (tasks_keep_frame_and_grid Z 0 1 Z.add Z.mul Left NonUnit 2
           [GemmTask 0 1; TrmmTask 1; TrmmTask 0]).
  vm_compute. reflexivity.
Defined.
